(** * A shallow embedding of the ledger engine of [main.py]

    The development models the two classes [Block] and [Blockchain] of
    [main.py] together with the library functions they call
    ([hashlib.sha256], [str] and [repr] on the values that are hashed), and
    proves properties of mining, validation, balances and lookup.

    Python list objects that are shared between the pending pool and the
    blocks are kept in an explicit store, so that aliasing between
    [Blockchain.pending_transactions] and [Block.transactions] is visible. *)

From Stdlib Require Import ZArith NArith List String Ascii DecimalString Lia.
From stdpp Require Import base option list gmap strings.

Set Default Proof Using "Type".
Local Open Scope string_scope.

(** ** [hashlib.sha256(...).hexdigest()] (FIPS 180-4) *)

Module SHA256.
Local Open Scope Z_scope.

Definition mask32 : Z := 0xffffffff.
Definition trunc32 (x : Z) : Z := Z.land x mask32.
Definition plus32 (x y : Z) : Z := trunc32 (x + y).
Definition rotr (n x : Z) : Z :=
  Z.lor (Z.shiftr x n) (trunc32 (Z.shiftl x (32 - n))).
Definition xor3 (a b c : Z) : Z := Z.lxor (Z.lxor a b) c.

Definition Ch (x y z : Z) : Z :=
  Z.lxor (Z.land x y) (Z.land (Z.lxor x mask32) z).
Definition Maj (x y z : Z) : Z :=
  xor3 (Z.land x y) (Z.land x z) (Z.land y z).
Definition bsig0 (x : Z) : Z := xor3 (rotr 2 x) (rotr 13 x) (rotr 22 x).
Definition bsig1 (x : Z) : Z := xor3 (rotr 6 x) (rotr 11 x) (rotr 25 x).
Definition ssig0 (x : Z) : Z := xor3 (rotr 7 x) (rotr 18 x) (Z.shiftr x 3).
Definition ssig1 (x : Z) : Z := xor3 (rotr 17 x) (rotr 19 x) (Z.shiftr x 10).

(** The round constants and the initial hash value are the first 32 bits of
    the fractional parts of the cube roots of the first 64 primes and of
    the square roots of the first 8 primes. *)
Definition is_prime (n : Z) : bool :=
  forallb (fun d => negb (n mod d =? 0)) (map Z.of_nat (seq 2 (Z.to_nat n - 2))).

Definition first_primes (count : nat) : list Z :=
  firstn count (filter is_prime (map Z.of_nat (seq 2 310))).

(** The largest [r' >= r] with [r' ^ k <= n], deciding the [bits] low bits. *)
Fixpoint root_from (k : Z) (bits : nat) (n r : Z) : Z :=
  match bits with
  | O => r
  | S bits' =>
      let r' := r + 2 ^ Z.of_nat bits' in
      root_from k bits' n (if r' ^ k <=? n then r' else r)
  end.

Definition root_fraction (k p : Z) : Z :=
  trunc32 (root_from k 40 (p * 2 ^ (32 * k)) 0).

Definition K : list Z := Eval vm_compute in map (root_fraction 3) (first_primes 64).

Definition IV : list Z := Eval vm_compute in map (root_fraction 2) (first_primes 8).

(** Big-endian encoding of [x] on [n] bytes. *)
Fixpoint be_bytes (n : nat) (x : Z) : list Z :=
  match n with
  | O => []
  | S n' => Z.land (Z.shiftr x (8 * Z.of_nat n')) 0xff :: be_bytes n' x
  end.

(** Message padding: a [1] bit, zeros up to 56 modulo 64 bytes, then the
    bit length on 8 bytes. *)
Definition pad (msg : list Z) : list Z :=
  let len := Z.of_nat (length msg) in
  let zeros := Z.to_nat ((55 - len) mod 64) in
  msg ++ 0x80 :: repeat 0 zeros ++ be_bytes 8 (8 * len).

Fixpoint words (fuel : nat) (bs : list Z) : list Z :=
  match fuel, bs with
  | S fuel', b0 :: b1 :: b2 :: b3 :: rest =>
      Z.lor (Z.shiftl b0 24) (Z.lor (Z.shiftl b1 16) (Z.lor (Z.shiftl b2 8) b3))
      :: words fuel' rest
  | _, _ => []
  end.

(** The message schedule, most recent word first: [W_t] is computed from
    [W_(t-2)], [W_(t-7)], [W_(t-15)] and [W_(t-16)]. *)
Fixpoint schedule (n : nat) (rev_w : list Z) : list Z :=
  match n with
  | O => rev_w
  | S n' =>
      let at_ i := nth i rev_w 0 in
      let w := plus32 (plus32 (ssig1 (at_ 1%nat)) (at_ 6%nat))
                      (plus32 (ssig0 (at_ 14%nat)) (at_ 15%nat)) in
      schedule n' (w :: rev_w)
  end.

Record regs := Regs { ra : Z; rb : Z; rc : Z; rd : Z; re : Z; rf : Z; rg : Z; rh : Z }.

Definition round (s : regs) (kw : Z * Z) : regs :=
  let t1 := plus32 (plus32 (plus32 (rh s) (bsig1 (re s)))
                           (plus32 (Ch (re s) (rf s) (rg s)) (fst kw))) (snd kw) in
  let t2 := plus32 (bsig0 (ra s)) (Maj (ra s) (rb s) (rc s)) in
  Regs (plus32 t1 t2) (ra s) (rb s) (rc s) (plus32 (rd s) t1) (re s) (rf s) (rg s).

Definition regs_of (h : list Z) : regs :=
  let at_ i := nth i h 0 in
  Regs (at_ 0%nat) (at_ 1%nat) (at_ 2%nat) (at_ 3%nat)
       (at_ 4%nat) (at_ 5%nat) (at_ 6%nat) (at_ 7%nat).

Definition list_of (s : regs) : list Z :=
  [ra s; rb s; rc s; rd s; re s; rf s; rg s; rh s].

Definition compress (h : list Z) (block : list Z) : list Z :=
  let w := rev (schedule 48 (rev (words 16 block))) in
  let s := fold_left round (combine K w) (regs_of h) in
  zip_with plus32 h (list_of s).

Fixpoint blocks (n : nat) (h : list Z) (bs : list Z) : list Z :=
  match n with
  | O => h
  | S n' => blocks n' (compress h (firstn 64 bs)) (skipn 64 bs)
  end.

Definition digest (msg : list Z) : list Z :=
  let p := pad msg in
  flat_map (be_bytes 4) (blocks (length p / 64) IV p).

Definition hex_digit (d : Z) : ascii :=
  ascii_of_N (Z.to_N (if d <? 10 then 48 + d else 87 + d)).

Definition hex_byte (b : Z) : string :=
  String (hex_digit (Z.shiftr b 4)) (String (hex_digit (Z.land b 0xf)) EmptyString).

Definition bytes_of_string (s : string) : list Z :=
  map (fun c => Z.of_N (N_of_ascii c)) (list_ascii_of_string s).

(** [hashlib.sha256(s.encode()).hexdigest()]; a [string] here is the
    UTF-8 byte sequence of the Python [str]. *)
Definition hexdigest (s : string) : string :=
  fold_right (fun b acc => hex_byte b ++ acc) EmptyString
             (digest (bytes_of_string s)).
End SHA256.

(** ** Python's [str] and [repr] on the values that are hashed *)

(** [str(n)] for a Python [int], on the ints that [str] prints: CPython from
    3.11 on raises [ValueError] for an int of more than
    [sys.int_info.default_max_str_digits] (4300) digits, and that case is
    outside this model. *)
Definition str_int (z : Z) : string := NilZero.string_of_int (Z.to_int z).
Definition str_N (n : N) : string := str_int (Z.of_N n).
Definition str_nat (n : nat) : string := str_int (Z.of_nat n).

(** ['%0<width>d' % n] for a non-negative [n]. *)
Definition zero_pad (width : nat) (n : N) : string :=
  let digits := str_N n in
  string_of_list_ascii (repeat "0"%char (width - String.length digits)) ++ digits.

(** A naive [datetime.datetime], as returned by [datetime.datetime.now()]. *)
Record datetime := Datetime {
  year : N; month : N; day : N;
  hour : N; minute : N; second : N; microsecond : N }.

(** [str(dt)], which is [dt.isoformat(sep=' ')]: the fraction is printed
    only when the microsecond field is not zero. *)
Definition str_datetime (dt : datetime) : string :=
  zero_pad 4 (year dt) ++ "-" ++ zero_pad 2 (month dt) ++ "-" ++ zero_pad 2 (day dt)
  ++ " " ++ zero_pad 2 (hour dt) ++ ":" ++ zero_pad 2 (minute dt)
  ++ ":" ++ zero_pad 2 (second dt)
  ++ (if N.eqb (microsecond dt) 0 then "" else "." ++ zero_pad 6 (microsecond dt)).

Definition squote : ascii := "'"%char.
Definition dquote : ascii := "034"%char.
Definition backslash : ascii := "\"%char.

Fixpoint occurs (c : ascii) (s : string) : bool :=
  match s with
  | EmptyString => false
  | String d s' => Ascii.eqb c d || occurs c s'
  end.

Definition hex_nibble (n : N) : ascii :=
  ascii_of_N (if N.ltb n 10 then 48 + n else 87 + n).

(** One character of [repr(s)] for the chosen [quote]. Bytes from 128
    upwards belong to the UTF-8 encoding of a non-ASCII character and are
    kept, as [repr] keeps every printable character. The non-ASCII
    characters that are not printable (U+00A0, U+200B, ...), which [repr]
    writes as an escape, are outside this model. *)
Definition repr_char (quote c : ascii) : string :=
  let n := N_of_ascii c in
  if Ascii.eqb c quote || Ascii.eqb c backslash then String backslash (String c "")
  else if N.eqb n 9 then "\t"
  else if N.eqb n 10 then "\n"
  else if N.eqb n 13 then "\r"
  else if N.ltb n 32 || N.eqb n 127 then
    String backslash (String "x" (String (hex_nibble (N.shiftr n 4))
                                         (String (hex_nibble (N.land n 15)) "")))
  else String c "".

Fixpoint repr_chars (quote : ascii) (s : string) : string :=
  match s with
  | EmptyString => ""
  | String c s' => repr_char quote c ++ repr_chars quote s'
  end.

(** [repr(s)] for a [str]: single quotes, unless the text has a single
    quote and no double quote. *)
Definition repr_str (s : string) : string :=
  let quote := if occurs squote s && negb (occurs dquote s) then dquote else squote in
  String quote (repr_chars quote s ++ String quote "").

(** The numbers that can be an amount: the operations the ledger applies to
    them are the literal, [+], [-] and [repr]. *)
Class PyNumber (A : Type) := {
  py_int : Z -> A;
  py_add : A -> A -> A;
  py_sub : A -> A -> A;
  py_repr : A -> string }.

(** Python's [int]. *)
#[export] Instance PyNumber_int : PyNumber Z :=
  {| py_int z := z; py_add := Z.add; py_sub := Z.sub; py_repr := str_int |}.

(** ** The data model *)

(** The identity of a Python [list] object. *)
Definition loc := positive.

(** What a call can do: return, raise, or still be running when the fuel
    given to its [while] loop is used up. *)
Inductive outcome (R : Type) : Type :=
  | Returns (r : R)
  | Raises (e : string)
  | Unfinished.
Arguments Returns {R} r.
Arguments Raises {R} e.
Arguments Unfinished {R}.

(** The draws of [random.choices] during one call: draw [i] is an index
    into the population. *)
Definition draws := nat -> nat.

(** [string.ascii_letters + string.digits] *)
Definition id_population : string :=
  "abcdefghijklmnopqrstuvwxyzABCDEFGHIJKLMNOPQRSTUVWXYZ0123456789".

Section Ledger.
Context {A : Type} `{PyNumber A}.

(** A transaction is the dict built by [add_transaction] and [mine_block],
    with its four keys in insertion order. *)
Record Transaction := mkTransaction {
  sender : string;
  recipient : string;
  amount : A;
  id : string }.

Record Block := mkBlock {
  index : nat;
  timestamp : datetime;
  transactions : loc;
  previous_hash : string;
  nonce : N;
  hash : string }.

(** A [Blockchain] object, with the list objects that its pool and its
    blocks point to. *)
Record Blockchain := mkBlockchain {
  lists : gmap loc (list Transaction);
  chain : list Block;
  pending_transactions : loc }.

(** The elements of the list object at [l]. The lists that a ledger points
    to are in its store (invariant [wf]), so the default is not read. *)
Definition elements_at (m : gmap loc (list Transaction)) (l : loc) : list Transaction :=
  default [] (m !! l).

(** [repr] of a transaction dict and [str] of a list of them. *)
Definition repr_transaction (t : Transaction) : string :=
  "{'sender': " ++ repr_str (sender t) ++ ", 'recipient': " ++ repr_str (recipient t)
  ++ ", 'amount': " ++ py_repr (amount t) ++ ", 'id': " ++ repr_str (id t) ++ "}".

Fixpoint join_reprs (ts : list Transaction) : string :=
  match ts with
  | [] => ""
  | [t] => repr_transaction t
  | t :: ts' => repr_transaction t ++ ", " ++ join_reprs ts'
  end.

Definition str_transactions (ts : list Transaction) : string :=
  "[" ++ join_reprs ts ++ "]".

(** ** [Block] *)

(** The string that [Block.calculate_hash] hashes, for explicit field
    values. *)
Definition hash_input (i : nat) (ts : datetime) (txs : list Transaction)
    (prev : string) (n : N) : string :=
  str_nat i ++ str_datetime ts ++ str_transactions txs ++ prev ++ str_N n.

Definition calculate_hash (m : gmap loc (list Transaction)) (b : Block) : string :=
  SHA256.hexdigest
    (hash_input (index b) (timestamp b) (elements_at m (transactions b))
                (previous_hash b) (nonce b)).

(** [Block.__init__] *)
Definition Block_init (m : gmap loc (list Transaction)) (i : nat) (ts : datetime)
    (txs : loc) (prev : string) : Block :=
  let b := mkBlock i ts txs prev 0 "" in
  mkBlock i ts txs prev 0 (calculate_hash m b).

(** The assignment [block.nonce = n]. *)
Definition set_nonce (n : N) (b : Block) : Block :=
  mkBlock (index b) (timestamp b) (transactions b) (previous_hash b) n (hash b).

(** ** [Blockchain] *)

(** A list display [[...]] makes a new list object. *)
Definition new_list (m : gmap loc (list Transaction)) (ts : list Transaction)
    : gmap loc (list Transaction) * loc :=
  let l := fresh (dom m) in (<[l := ts]> m, l).

Definition create_genesis_block (m : gmap loc (list Transaction)) (now : datetime)
    : gmap loc (list Transaction) * Block :=
  let '(m1, l) := new_list m [] in
  (m1, Block_init m1 0 now l "0").

(** [Blockchain.__init__], on a store [m] of the lists that exist already. *)
Definition Blockchain_init_in (m : gmap loc (list Transaction)) (now : datetime)
    : Blockchain :=
  let '(m1, genesis) := create_genesis_block m now in
  let '(m2, pool) := new_list m1 [] in
  mkBlockchain m2 [genesis] pool.

Definition Blockchain_init (now : datetime) : Blockchain :=
  Blockchain_init_in ∅ now.

Definition add_block (bc : Blockchain) (b : Block) : Blockchain :=
  mkBlockchain (lists bc) (chain bc ++ [b]) (pending_transactions bc).

(** [generate_transaction_id]: ten draws from the population. *)
Definition generate_transaction_id (rnd : draws) : string :=
  string_of_list_ascii
    (map (fun i => default "a"%char
                     (String.get (rnd i mod String.length id_population) id_population))
         (seq 0 10)).

(** [valid_proof] *)
Definition valid_proof (block_hash : string) (n : N) : bool :=
  let guess := block_hash ++ str_N n in
  let guess_hash := SHA256.hexdigest guess in
  String.eqb (substring 0 4 guess_hash) "0000".

(** The [while] loop of [proof_of_work], started at [n], with at most
    [fuel] tests of the loop condition. *)
Fixpoint proof_of_work_from (fuel : nat) (block_hash : string) (n : N) : option N :=
  match fuel with
  | O => None
  | S fuel' =>
      if valid_proof block_hash n then Some n
      else proof_of_work_from fuel' block_hash (N.succ n)
  end.

Definition proof_of_work (fuel : nat) (block_hash : string) : option N :=
  proof_of_work_from fuel block_hash 0.

(** [mine_block]. [now] is the clock reading and [rnd] the random draws
    of this call. *)
Definition mine_block (fuel : nat) (bc : Blockchain) (miner_address : string)
    (now : datetime) (rnd : draws) : outcome (bool * Blockchain) :=
  if Nat.eqb (length (elements_at (lists bc) (pending_transactions bc))) 0 then
    Returns (false, bc)
  else
    match last (chain bc) with
    | None => Raises "IndexError"
    | Some tip =>
        let block := Block_init (lists bc) (length (chain bc)) now
                                (pending_transactions bc) (hash tip) in
        match proof_of_work fuel (hash block) with
        | None => Unfinished
        | Some n =>
            let block := set_nonce n block in
            let bc1 := add_block bc block in
            let reward_transaction :=
              mkTransaction "Blockchain" miner_address (py_int 1)
                            (generate_transaction_id rnd) in
            let '(m, pool) := new_list (lists bc1) [reward_transaction] in
            Returns (true, mkBlockchain m (chain bc1) pool)
        end
    end.

(** [add_transaction]: [append] changes the pool's list object in place. *)
Definition add_transaction (bc : Blockchain) (sender recipient : string)
    (amount : A) (rnd : draws) : Blockchain :=
  let transaction :=
    mkTransaction sender recipient amount (generate_transaction_id rnd) in
  let l := pending_transactions bc in
  mkBlockchain (<[l := (elements_at (lists bc) l ++ [transaction])%list]> (lists bc))
               (chain bc) l.

(** [get_balance]: the two nested [for] loops over an accumulator. *)
Definition balance_step (address : string) (balance : A) (t : Transaction) : A :=
  if String.eqb (sender t) address then py_sub balance (amount t)
  else if String.eqb (recipient t) address then py_add balance (amount t)
  else balance.

Definition get_balance (bc : Blockchain) (address : string) : A :=
  fold_left
    (fun balance block =>
       fold_left (balance_step address)
                 (elements_at (lists bc) (transactions block)) balance)
    (chain bc) (py_int 0).

(** [get_transaction_by_id]: [None] is Python's [None]. *)
Fixpoint find_in_block (transaction_id : string) (ts : list Transaction)
    : option Transaction :=
  match ts with
  | [] => None
  | t :: ts' =>
      if String.eqb (id t) transaction_id then Some t
      else find_in_block transaction_id ts'
  end.

Fixpoint find_in_blocks (m : gmap loc (list Transaction)) (transaction_id : string)
    (bs : list Block) : option Transaction :=
  match bs with
  | [] => None
  | b :: bs' =>
      match find_in_block transaction_id (elements_at m (transactions b)) with
      | Some t => Some t
      | None => find_in_blocks m transaction_id bs'
      end
  end.

Definition get_transaction_by_id (bc : Blockchain) (transaction_id : string)
    : option Transaction :=
  find_in_blocks (lists bc) transaction_id (chain bc).

(** [is_chain_valid]: the loop over [range(1, len(self.chain))]. An index
    of that range is always inside the chain, so the last case of the
    [match] is never taken (lemma [is_chain_valid_in_range]). *)
Fixpoint is_chain_valid_loop (m : gmap loc (list Transaction)) (bs : list Block)
    (range : list nat) : bool :=
  match range with
  | [] => true
  | i :: range' =>
      match bs !! i, bs !! (i - 1)%nat with
      | Some current_block, Some previous_block =>
          if negb (String.eqb (hash current_block) (calculate_hash m current_block))
          then false
          else if negb (String.eqb (previous_hash current_block) (hash previous_block))
          then false
          else is_chain_valid_loop m bs range'
      | _, _ => false
      end
  end.

Definition is_chain_valid (bc : Blockchain) : bool :=
  is_chain_valid_loop (lists bc) (chain bc) (seq 1 (length (chain bc) - 1)).

End Ledger.

Arguments Transaction A : clear implicits.
Arguments Blockchain A : clear implicits.

(** ** States of the ledger *)

Section States.
Context {A : Type} `{PyNumber A}.
Implicit Types (bc : Blockchain A) (b : Block) (m : gmap loc (list (Transaction A))).

(** The contents of the pending pool. *)
Definition pool (bc : Blockchain A) : list (Transaction A) :=
  elements_at (lists bc) (pending_transactions bc).

(** The transactions of the blocks, in chain order and then in the order
    of each block's list. *)
Definition committed (bc : Blockchain A) : list (Transaction A) :=
  flat_map (fun b => elements_at (lists bc) (transactions b)) (chain bc).

(** One call of a public operation that returns. *)
Inductive step : Blockchain A -> Blockchain A -> Prop :=
  | step_add_transaction bc sender recipient amount rnd :
      step bc (add_transaction bc sender recipient amount rnd)
  | step_mine_block bc fuel miner_address now rnd ok bc' :
      mine_block fuel bc miner_address now rnd = Returns (ok, bc') ->
      step bc bc'.

(** The states that construction followed by public operations leads to. *)
Definition reachable (bc : Blockchain A) : Prop :=
  exists m now, rtc step (Blockchain_init_in m now) bc.

(** The lists of the blocks exist and none of them is the pool's list. *)
Record wf (bc : Blockchain A) : Prop := {
  wf_chain : chain bc <> [];
  wf_pool : is_Some (lists bc !! pending_transactions bc);
  wf_blocks : forall b, b ∈ chain bc -> is_Some (lists bc !! transactions b);
  wf_apart : forall b, b ∈ chain bc -> transactions b <> pending_transactions bc }.



Definition set_hash (s : string) (b : Block) : Block :=
  mkBlock (index b) (timestamp b) (transactions b) (previous_hash b) (nonce b) s.

Definition tamper (i : nat) (f : Block -> Block) (bc : Blockchain A) : Blockchain A :=
  mkBlockchain (lists bc) (alter f i (chain bc)) (pending_transactions bc).

(** The spec's reading of [get_balance]: debit the sender, else credit
    the recipient. *)
Definition debit_else_credit (address : string) (balance : A) (t : Transaction A) : A :=
  if decide (sender t = address) then py_sub balance (amount t)
  else if decide (recipient t = address) then py_add balance (amount t)
  else balance.

(** [bc'] keeps the blocks of [bc], in place and with the same lists. *)
Definition extends (bc bc' : Blockchain A) : Prop :=
  chain bc `prefix_of` chain bc' /\
  forall b, b ∈ chain bc ->
    elements_at (lists bc') (transactions b) = elements_at (lists bc) (transactions b).

(** What one iteration of the loop of [is_chain_valid] accepts. *)
Definition link_ok m (bs : list Block) (i : nat) : Prop :=
  exists current_block previous_block,
    bs !! i = Some current_block /\ bs !! (i - 1)%nat = Some previous_block /\
    hash current_block = calculate_hash m current_block /\
    previous_hash current_block = hash previous_block.

(** The hash of the candidate block that [mine_block] builds on top of
    [tip]: the hash that [Block.__init__] stores, computed with nonce 0. *)
Definition candidate_hash (bc : Blockchain A) (now : datetime) (tip : Block) : string :=
  SHA256.hexdigest (hash_input (length (chain bc)) now (pool bc) (hash tip) 0).

(** The reward that [mine_block] leaves in the pool. *)
Definition reward (miner_address : string) (rnd : draws) : Transaction A :=
  mkTransaction "Blockchain" miner_address (py_int 1) (generate_transaction_id rnd).

(** The spec's reading of [get_balance] on a list of transactions. *)
Definition balance_of (address : string) (ts : list (Transaction A)) : A :=
  fold_left (debit_else_credit address) ts (py_int 0).

(** The arguments of a call of [add_transaction], with its random draws. *)
Definition request : Type := string * string * A * draws.

(** The transaction that the call builds. *)
Definition request_transaction (q : request) : Transaction A :=
  mkTransaction q.1.1.1 q.1.1.2 q.1.2 (generate_transaction_id q.2).

(** Calls of [add_transaction], one after the other. *)
Definition add_transactions (bc : Blockchain A) (qs : list request) : Blockchain A :=
  fold_left (fun bc q => add_transaction bc q.1.1.1 q.1.1.2 q.1.2 q.2) qs bc.

End States.

(** ** Balances of Python [int] amounts *)

(** What one transaction adds to the balance of [address]. *)
Definition delta (address : string) (t : Transaction Z) : Z :=
  if decide (sender t = address) then (- amount t)%Z
  else if decide (recipient t = address) then amount t
  else 0%Z.

(** The sum of [f] over a list of addresses. *)
Definition total (f : string -> Z) (addresses : list string) : Z :=
  foldr Z.add 0%Z (map f addresses).

Arguments SHA256.hexdigest : simpl never.
Arguments calculate_hash : simpl never.
Arguments valid_proof : simpl never.
Arguments generate_transaction_id : simpl never.

(** ** A concrete ledger

    A ledger opened on 2023-05-01, one payment from [A] to [B], and a block
    mined by [M] one second later. Amounts are Python [int]s. *)

Module Scenario.

Definition opened : datetime := Datetime 2023 5 1 12 0 0 1.
Definition rnd_a : draws := fun _ => 0%nat.
Definition rnd_b : draws := fun _ => 1%nat.

Definition ledger0 : Blockchain Z := Blockchain_init opened.
Definition ledger1 : Blockchain Z := add_transaction ledger0 "A" "B" 10%Z rnd_a.

(** The first valid nonce of a block mined at this time is 1. *)
Definition mined_at : datetime := Datetime 2023 5 1 12 0 1 21155.
(** The first valid nonce of a block mined at this time is 0. *)
Definition mined_at' : datetime := Datetime 2023 5 1 12 0 1 17996.

Definition mined (now : datetime) : Blockchain Z :=
  match mine_block 2 ledger1 "M" now rnd_b with
  | Returns (_, bc) => bc
  | _ => ledger1
  end.

Definition ledger2 : Blockchain Z := mined mined_at.
Definition ledger2' : Blockchain Z := mined mined_at'.

(** After [ledger2], [M] pays 5 to [C], and [N] mines a second block; its
    first valid nonce is 2. *)
Definition spending : list (@request Z) := [("M", "C", 5%Z, rnd_a)].

Definition mined_next : datetime := Datetime 2023 5 1 12 0 2 4625.

Definition ledger3 : Blockchain Z :=
  match mine_block 3 (add_transactions ledger2 spending) "N" mined_next rnd_b with
  | Returns (_, bc) => bc
  | _ => ledger2
  end.

Definition genesis : Block :=
  mkBlock 0 opened 1%positive "0" 0
          "92f44a33d45be88571f5876d97ff4aecaa1900cfb71e749dd59bb4d8c98ddab9".

Definition payment : Transaction Z := mkTransaction "A" "B" 10%Z "aaaaaaaaaa".

(** The block appended to [ledger1] at [mined_at], and at [mined_at']. *)
Definition block1 : Block :=
  mkBlock 1 mined_at 2%positive (hash genesis) 1
          "fb9a023fd028531d6496598c14ac8cdec9cecf267a689844d8cefc594d8da39f".

Definition block1' : Block :=
  mkBlock 1 mined_at' 2%positive (hash genesis) 0
          "0b8fa7fd6e6d9780704ab3ee9bead6012eebf311698562768f61e4412108100a".

Definition reward_M : Transaction Z := mkTransaction "Blockchain" "M" 1%Z "bbbbbbbbbb".

End Scenario.

(** * Properties *)

(** ** The library functions on known values *)

Example sha256_empty :
  SHA256.hexdigest "" =
  "e3b0c44298fc1c149afbf4c8996fb92427ae41e4649b934ca495991b7852b855".
Proof. vm_compute. reflexivity. Qed.

Example sha256_abc :
  SHA256.hexdigest "abc" =
  "ba7816bf8f01cfea414140de5dae2223b00361a396177a9cb410ff61f20015ad".
Proof. vm_compute. reflexivity. Qed.

Example sha256_two_blocks :
  SHA256.hexdigest "abcdbcdecdefdefgefghfghighijhijkijkljklmklmnlmnomnopnopq" =
  "248d6a61d20638b8e5c026930c3e6039a33ce45964ff2167f6ecedd419db06c1".
Proof. vm_compute. reflexivity. Qed.

Example str_int_neg : str_int (-5) = "-5". Proof. reflexivity. Qed.
Example str_datetime_frac :
  str_datetime (Datetime 2023 4 9 8 5 0 1234) = "2023-04-09 08:05:00.001234".
Proof. reflexivity. Qed.
Example str_datetime_whole :
  str_datetime (Datetime 2023 12 31 23 59 59 0) = "2023-12-31 23:59:59".
Proof. reflexivity. Qed.
Example repr_str_plain : repr_str "Blockchain" = "'Blockchain'".
Proof. reflexivity. Qed.
Example repr_str_quote : repr_str "it's" = String dquote ("it's" ++ String dquote "").
Proof. reflexivity. Qed.

(** ** The ledger engine *)

Section Lemmas.
Context {A : Type} `{PyNumber A}.
Implicit Types (bc : Blockchain A) (b : Block) (m : gmap loc (list (Transaction A))).

(** *** The proof-of-work loop *)

Lemma proof_of_work_from_Some fuel block_hash n r :
  proof_of_work_from fuel block_hash n = Some r ->
  (n <= r)%N /\ valid_proof block_hash r = true /\
  forall k, (n <= k < r)%N -> valid_proof block_hash k = false.
Proof.
  revert n. induction fuel as [|fuel IH]; intros n; simpl; [discriminate|].
  destruct (valid_proof block_hash n) eqn:Hn.
  - intros [= <-]. repeat split; [lia | done | lia].
  - intros Hr. destruct (IH _ Hr) as (Hle & Hv & Hmin).
    repeat split; [lia | done |].
    intros k Hk. destruct (decide (k = n)) as [->|Hne]; [done|].
    apply Hmin. lia.
Qed.

Lemma proof_of_work_from_finds fuel block_hash n k :
  valid_proof block_hash k = true -> (n <= k)%N ->
  (N.to_nat (k - n) < fuel)%nat ->
  exists r, proof_of_work_from fuel block_hash n = Some r /\ (r <= k)%N.
Proof.
  revert n. induction fuel as [|fuel IH]; intros n Hk Hle Hfuel; [lia|].
  simpl. destruct (valid_proof block_hash n) eqn:Hn.
  - exists n. split; [done | lia].
  - assert (k <> n) by congruence.
    destruct (IH (N.succ n)) as (r & Hr & Hrk); [done | lia | lia |].
    exists r. split; [done | lia].
Qed.

Lemma proof_of_work_Some fuel block_hash r :
  proof_of_work fuel block_hash = Some r ->
  valid_proof block_hash r = true /\
  forall k, (k < r)%N -> valid_proof block_hash k = false.
Proof.
  intros Hr. destruct (proof_of_work_from_Some _ _ _ _ Hr) as (_ & Hv & Hmin).
  split; [done|]. intros k Hk. apply Hmin. lia.
Qed.

Lemma proof_of_work_finds fuel block_hash k :
  valid_proof block_hash k = true -> (N.to_nat k < fuel)%nat ->
  exists r, proof_of_work fuel block_hash = Some r /\ (r <= k)%N.
Proof.
  intros Hk Hfuel. apply proof_of_work_from_finds; [done | lia | lia].
Qed.

(** A valid proof is a digest that starts with four zero digits. *)
Lemma valid_proof_prefix block_hash n :
  valid_proof block_hash n = true <->
  String.prefix "0000" (SHA256.hexdigest (block_hash ++ str_N n)) = true.
Proof.
  unfold valid_proof. rewrite String.eqb_eq, String.prefix_correct. done.
Qed.

(** *** What a call of [mine_block] that returns has done *)

Lemma pool_nonempty_lookup bc :
  pool bc <> [] -> is_Some (lists bc !! pending_transactions bc).
Proof.
  unfold pool, elements_at. destruct (lists bc !! _); [eauto | done].
Qed.

Lemma mine_block_empty fuel bc miner_address now rnd :
  pool bc = [] -> mine_block fuel bc miner_address now rnd = Returns (false, bc).
Proof. unfold mine_block, pool. intros ->. done. Qed.

Lemma mine_block_Returns fuel bc miner_address now rnd ok bc' :
  mine_block fuel bc miner_address now rnd = Returns (ok, bc') ->
  (ok = false /\ pool bc = [] /\ bc' = bc) \/
  (ok = true /\ pool bc <> [] /\
   exists tip n,
     last (chain bc) = Some tip /\
     let block := Block_init (lists bc) (length (chain bc)) now
                             (pending_transactions bc) (hash tip) in
     let l := fresh (dom (lists bc)) in
     proof_of_work fuel (hash block) = Some n /\
     bc' = mkBlockchain
             (<[l := [mkTransaction "Blockchain" miner_address (py_int 1)
                                    (generate_transaction_id rnd)]]> (lists bc))
             (chain bc ++ [set_nonce n block]) l).
Proof.
  unfold mine_block. fold (pool bc).
  destruct (pool bc) as [|t ts] eqn:Hpool; simpl.
  - intros [= <- <-]. by left.
  - destruct (last (chain bc)) as [tip|]; [|done].
    destruct (proof_of_work _ _) as [n|] eqn:Hn; [|done].
    intros [= <- <-]. right. split; [done|]. split; [done|].
    exists tip, n. by rewrite Hn.
Qed.

(** The chain of a well-formed ledger has a last block, so [self.chain[-1]]
    does not raise. *)
Lemma mine_block_never_raises fuel bc miner_address now rnd e :
  chain bc <> [] -> mine_block fuel bc miner_address now rnd <> Raises e.
Proof.
  intros Hchain. unfold mine_block.
  destruct (Nat.eqb _ _); [done|].
  destruct (last (chain bc)) as [tip|] eqn:Htip.
  - by destruct (proof_of_work _ _).
  - by apply last_None in Htip.
Qed.

Lemma mine_block_finds fuel bc miner_address now rnd tip k :
  pool bc <> [] -> last (chain bc) = Some tip ->
  valid_proof (hash (Block_init (lists bc) (length (chain bc)) now
                                (pending_transactions bc) (hash tip))) k = true ->
  (N.to_nat k < fuel)%nat ->
  exists bc', mine_block fuel bc miner_address now rnd = Returns (true, bc').
Proof.
  intros Hpool Htip Hk Hfuel.
  destruct (proof_of_work_finds fuel _ k Hk Hfuel) as (r & Hr & _).
  unfold mine_block. fold (pool bc).
  destruct (pool bc) as [|t ts]; [done|].
  cbn [length Nat.eqb]. rewrite Htip, Hr. eauto.
Qed.

(** *** The store *)

Lemma fresh_lookup m : m !! fresh (dom m) = None.
Proof. apply not_elem_of_dom, is_fresh. Qed.

Lemma fresh_ne m l : is_Some (m !! l) -> l <> fresh (dom m).
Proof. intros [ts Hl] ->. by rewrite fresh_lookup in Hl. Qed.

Lemma fresh_insert_ne m ts :
  fresh (dom (<[fresh (dom m) := ts]> m)) <> fresh (dom m).
Proof.
  intros Heq. apply (fresh_ne (<[fresh (dom m) := ts]> m) (fresh (dom m))); [|done].
  rewrite lookup_insert_eq. eauto.
Qed.

Lemma elements_at_insert m l ts : elements_at (<[l := ts]> m) l = ts.
Proof. unfold elements_at. by rewrite lookup_insert_eq. Qed.

Lemma elements_at_insert_ne m l l' ts :
  l <> l' -> elements_at (<[l := ts]> m) l' = elements_at m l'.
Proof. intros Hne. unfold elements_at. by rewrite lookup_insert_ne. Qed.

Lemma elements_at_fresh m l ts :
  is_Some (m !! l) -> elements_at (<[fresh (dom m) := ts]> m) l = elements_at m l.
Proof. intros Hl. apply elements_at_insert_ne. intros Heq. by eapply fresh_ne. Qed.

(** *** The invariant *)

Lemma Blockchain_init_in_eq m now :
  let l1 := fresh (dom m) in
  let m1 := <[l1 := []]> m in
  let l2 := fresh (dom m1) in
  Blockchain_init_in m now =
  mkBlockchain (<[l2 := []]> m1) [Block_init m1 0 now l1 "0"] l2.
Proof. reflexivity. Qed.

Lemma wf_init m now : wf (Blockchain_init_in m now).
Proof.
  rewrite Blockchain_init_in_eq. cbv zeta.
  set (l1 := fresh (dom m)). set (m1 := <[l1 := []]> m).
  assert (Hl1 : is_Some (m1 !! l1)) by (unfold m1; rewrite lookup_insert_eq; eauto).
  split; cbn [chain lists pending_transactions].
  - done.
  - rewrite lookup_insert_eq. eauto.
  - intros b ->%list_elem_of_singleton. cbn [transactions Block_init].
    rewrite lookup_insert_ne; [done|]. intros Heq. by eapply fresh_ne.
  - intros b ->%list_elem_of_singleton. cbn [transactions Block_init].
    by apply fresh_ne.
Qed.

Lemma wf_add_transaction bc sender recipient amount rnd :
  wf bc -> wf (add_transaction bc sender recipient amount rnd).
Proof.
  intros [Hc Hp Hb Ha]. split; cbn [add_transaction chain lists pending_transactions].
  - done.
  - rewrite lookup_insert_eq. eauto.
  - intros b Hin. rewrite lookup_insert_ne; [by apply Hb|].
    intros Heq. by eapply Ha.
  - done.
Qed.

Lemma wf_mine_block fuel bc miner_address now rnd ok bc' :
  wf bc -> mine_block fuel bc miner_address now rnd = Returns (ok, bc') -> wf bc'.
Proof.
  intros [Hc Hp Hb Ha] Hmine.
  destruct (mine_block_Returns _ _ _ _ _ _ _ Hmine)
    as [(_ & _ & ->)|(_ & _ & tip & n & _ & _ & ->)]; [done|].
  split; cbn [chain lists pending_transactions].
  - by destruct (chain bc).
  - rewrite lookup_insert_eq. eauto.
  - intros b [Hin| ->%list_elem_of_singleton]%elem_of_app.
    + rewrite lookup_insert_ne; [by apply Hb|].
      intros Heq. eapply fresh_ne; [by apply Hb|done].
    + cbn [set_nonce transactions Block_init].
      rewrite lookup_insert_ne; [done|]. intros Heq. by eapply fresh_ne.
  - intros b [Hin| ->%list_elem_of_singleton]%elem_of_app.
    + apply fresh_ne. by apply Hb.
    + cbn [set_nonce transactions Block_init]. by apply fresh_ne.
Qed.

Lemma wf_step bc bc' : wf bc -> step bc bc' -> wf bc'.
Proof.
  intros Hwf Hstep. destruct Hstep as [bc s r a rnd|bc fuel miner now rnd ok bc' Hmine].
  - by apply wf_add_transaction.
  - by eapply wf_mine_block.
Qed.

Lemma wf_rtc bc bc' : wf bc -> rtc step bc bc' -> wf bc'.
Proof. intros Hwf Hsteps. induction Hsteps; eauto using wf_step. Qed.

Lemma wf_reachable bc : reachable bc -> wf bc.
Proof. intros (m & now & Hsteps). eapply wf_rtc; [apply wf_init | done]. Qed.

(** *** Committed blocks are left alone *)

Lemma extends_refl bc : extends bc bc.
Proof. split; [done | done]. Qed.

Lemma extends_trans bc1 bc2 bc3 : extends bc1 bc2 -> extends bc2 bc3 -> extends bc1 bc3.
Proof.
  intros [Hp1 He1] [Hp2 He2]. split; [by etrans|].
  intros b Hb. rewrite He2, He1; [done | done |].
  destruct Hp1 as [k ->]. apply elem_of_app. by left.
Qed.

Lemma extends_add_transaction bc sender recipient amount rnd :
  wf bc -> extends bc (add_transaction bc sender recipient amount rnd).
Proof.
  intros [Hc Hp Hb Ha]. split; cbn [add_transaction chain lists]; [done|].
  intros b Hin. apply elements_at_insert_ne. intros Heq. by eapply Ha.
Qed.

Lemma extends_mine_block fuel bc miner_address now rnd ok bc' :
  wf bc -> mine_block fuel bc miner_address now rnd = Returns (ok, bc') ->
  extends bc bc'.
Proof.
  intros [Hc Hp Hb Ha] Hmine.
  destruct (mine_block_Returns _ _ _ _ _ _ _ Hmine)
    as [(_ & _ & ->)|(_ & _ & tip & n & _ & _ & ->)]; [apply extends_refl|].
  split; cbn [chain lists].
  - by apply prefix_app_r.
  - intros b Hin. apply elements_at_fresh. by apply Hb.
Qed.

Lemma extends_step bc bc' : wf bc -> step bc bc' -> extends bc bc'.
Proof.
  intros Hwf Hstep. destruct Hstep as [bc s r a rnd|bc fuel miner now rnd ok bc' Hmine].
  - by apply extends_add_transaction.
  - by eapply extends_mine_block.
Qed.

Lemma extends_rtc bc bc' : wf bc -> rtc step bc bc' -> extends bc bc'.
Proof.
  intros Hwf Hsteps. induction Hsteps as [|bc1 bc2 bc3 Hstep _ IH].
  - apply extends_refl.
  - eapply extends_trans; [by apply extends_step|].
    apply IH. by eapply wf_step.
Qed.

Lemma flat_map_agree {X Y} (f g : X -> list Y) (xs : list X) :
  (forall x, x ∈ xs -> f x = g x) -> flat_map f xs = flat_map g xs.
Proof.
  induction xs as [|x xs IH]; intros Hfg; [done|]. simpl.
  rewrite (Hfg x), IH; [done | | by left].
  intros y Hy. apply Hfg. by right.
Qed.

(** *** The validity check *)

Lemma is_chain_valid_loop_true m bs range :
  is_chain_valid_loop m bs range = true <-> forall i, i ∈ range -> link_ok m bs i.
Proof.
  induction range as [|i range IH]; simpl.
  - split; [|done]. intros _ i Hi. by apply elem_of_nil in Hi.
  - destruct (bs !! i) as [cur|] eqn:Hcur; cycle 1.
    { split; [done|]. intros Hall.
      destruct (Hall i) as (c & p & Hc & _); [by left | congruence]. }
    destruct (bs !! (i - 1)%nat) as [prev|] eqn:Hprev; cycle 1.
    { split; [done|]. intros Hall.
      destruct (Hall i) as (c & p & _ & Hp & _); [by left | congruence]. }
    destruct (String.eqb_spec (hash cur) (calculate_hash m cur)) as [Hh|Hh]; simpl; cycle 1.
    { split; [done|]. intros Hall.
      destruct (Hall i) as (c & p & Hc & _ & Hch & _); [by left | congruence]. }
    destruct (String.eqb_spec (previous_hash cur) (hash prev)) as [Hl|Hl]; simpl; cycle 1.
    { split; [done|]. intros Hall.
      destruct (Hall i) as (c & p & Hc & Hp & _ & Hcl); [by left | congruence]. }
    rewrite IH. split.
    + intros Hall j [->|Hj]%elem_of_cons; [|by apply Hall].
      by exists cur, prev.
    + intros Hall j Hj. apply Hall. by right.
Qed.

(** The indices of [range(1, len(self.chain))] are inside the chain. *)
Lemma is_chain_valid_in_range (bs : list Block) i :
  i ∈ seq 1 (length bs - 1) -> is_Some (bs !! i) /\ is_Some (bs !! (i - 1)%nat).
Proof.
  rewrite elem_of_seq. intros Hi. split; apply lookup_lt_is_Some; lia.
Qed.

Lemma is_chain_valid_true bc :
  is_chain_valid bc = true <->
  forall i current_block previous_block,
    (1 <= i)%nat -> chain bc !! i = Some current_block ->
    chain bc !! (i - 1)%nat = Some previous_block ->
    hash current_block = calculate_hash (lists bc) current_block /\
    previous_hash current_block = hash previous_block.
Proof.
  unfold is_chain_valid. rewrite is_chain_valid_loop_true. split.
  - intros Hall i cur prev Hi Hcur Hprev.
    destruct (Hall i) as (c & p & Hc & Hp & Hok).
    { apply elem_of_seq. apply lookup_lt_Some in Hcur. lia. }
    by simplify_eq.
  - intros Hall i Hi.
    destruct (is_chain_valid_in_range _ _ Hi) as [[cur Hcur] [prev Hprev]].
    exists cur, prev. split; [done|]. split; [done|].
    apply (Hall i); [|done|done]. apply elem_of_seq in Hi. lia.
Qed.

Lemma is_chain_valid_false bc i current_block :
  (1 <= i)%nat -> chain bc !! i = Some current_block ->
  (hash current_block <> calculate_hash (lists bc) current_block \/
   forall previous_block, chain bc !! (i - 1)%nat = Some previous_block ->
     previous_hash current_block <> hash previous_block) ->
  is_chain_valid bc = false.
Proof.
  intros Hi Hcur Hbad. apply not_true_is_false. rewrite is_chain_valid_true.
  intros Hall.
  assert (is_Some (chain bc !! (i - 1)%nat)) as [prev Hprev].
  { apply lookup_lt_is_Some. apply lookup_lt_Some in Hcur. lia. }
  destruct (Hall i _ _ Hi Hcur Hprev) as [Hh Hl].
  destruct Hbad as [Hbad|Hbad]; [done|]. by apply (Hbad prev).
Qed.

(** *** The queries read the committed transactions *)

Lemma fold_left_flat_map {X Y Z} (f : Z -> Y -> Z) (g : X -> list Y) (xs : list X) (z : Z) :
  fold_left (fun acc x => fold_left f (g x) acc) xs z = fold_left f (flat_map g xs) z.
Proof.
  revert z. induction xs as [|x xs IH]; intros z; [done|].
  simpl. by rewrite fold_left_app, IH.
Qed.

Lemma balance_step_spec address balance (t : Transaction A) :
  balance_step address balance t = debit_else_credit address balance t.
Proof.
  unfold balance_step, debit_else_credit.
  destruct (String.eqb_spec (sender t) address); case_decide; try done.
  destruct (String.eqb_spec (recipient t) address); case_decide; done.
Qed.

Lemma get_balance_committed bc address :
  get_balance bc address = fold_left (balance_step address) (committed bc) (py_int 0).
Proof. unfold get_balance, committed. apply fold_left_flat_map. Qed.

Lemma fold_left_agree {X Y} (f g : Y -> X -> Y) (xs : list X) (y : Y) :
  (forall acc x, x ∈ xs -> f acc x = g acc x) -> fold_left f xs y = fold_left g xs y.
Proof.
  revert y. induction xs as [|x xs IH]; intros y Hfg; [done|]. simpl.
  rewrite Hfg; [|by left]. apply IH. intros acc x' Hx'. apply Hfg. by right.
Qed.

Lemma find_in_block_app transaction_id (ts1 ts2 : list (Transaction A)) :
  find_in_block transaction_id (ts1 ++ ts2) =
  match find_in_block transaction_id ts1 with
  | Some t => Some t
  | None => find_in_block transaction_id ts2
  end.
Proof.
  induction ts1 as [|t ts1 IH]; [done|]. simpl.
  by destruct (String.eqb (id t) transaction_id).
Qed.

Lemma get_transaction_by_id_committed bc transaction_id :
  get_transaction_by_id bc transaction_id = find_in_block transaction_id (committed bc).
Proof.
  unfold get_transaction_by_id, committed.
  induction (chain bc) as [|b bs IH]; [done|]. simpl.
  by rewrite find_in_block_app, IH.
Qed.

Lemma find_in_block_Some transaction_id (ts : list (Transaction A)) t :
  find_in_block transaction_id ts = Some t <->
  exists before after,
    ts = (before ++ t :: after)%list /\ id t = transaction_id /\
    forall u, u ∈ before -> id u <> transaction_id.
Proof.
  induction ts as [|u ts IH]; simpl.
  - split; [done|]. intros (before & after & Heq & _). by destruct before.
  - destruct (String.eqb_spec (id u) transaction_id) as [Hu|Hu].
    + split.
      * intros [= ->]. exists [], ts. split; [done|]. split; [done|].
        intros v Hv. by apply elem_of_nil in Hv.
      * intros ([|v before] & after & Heq & Ht & Hbefore); simplify_eq/=; [done|].
        exfalso. apply (Hbefore v); [by left | done].
    + rewrite IH. split.
      * intros (before & after & -> & Ht & Hbefore).
        exists (u :: before), after. split; [done|]. split; [done|].
        intros v [->|Hv]%elem_of_cons; [done | by apply Hbefore].
      * intros ([|v before] & after & Heq & Ht & Hbefore); simplify_eq/=.
        exists before, after. split; [done|]. split; [done|].
        intros w Hw. apply Hbefore. by right.
Qed.

Lemma find_in_block_None transaction_id (ts : list (Transaction A)) :
  find_in_block transaction_id ts = None <->
  forall u, u ∈ ts -> id u <> transaction_id.
Proof.
  induction ts as [|u ts IH]; simpl.
  - split; [|done]. intros _ v Hv. by apply elem_of_nil in Hv.
  - destruct (String.eqb_spec (id u) transaction_id) as [Hu|Hu].
    + split; [done|]. intros Hall. exfalso. apply (Hall u); [by left | done].
    + rewrite IH. split.
      * intros Hall v [->|Hv]%elem_of_cons; [done | by apply Hall].
      * intros Hall v Hv. apply Hall. by right.
Qed.

End Lemmas.

Local Open Scope list_scope.

(** ** Mining *)

Section Mining.
Context {A : Type} `{PyNumber A}.
Implicit Types (bc : Blockchain A) (b : Block).

Lemma hash_Block_init bc now tip :
  hash (Block_init (lists bc) (length (chain bc)) now
                   (pending_transactions bc) (hash tip)) = candidate_hash bc now tip.
Proof. reflexivity. Qed.

(** A successful call, field by field. *)
Lemma mine_block_true fuel bc miner_address now rnd bc' :
  mine_block fuel bc miner_address now rnd = Returns (true, bc') ->
  pool bc <> [] /\
  exists tip n,
    last (chain bc) = Some tip /\
    proof_of_work fuel (candidate_hash bc now tip) = Some n /\
    chain bc' = chain bc ++ [mkBlock (length (chain bc)) now (pending_transactions bc)
                                      (hash tip) n (candidate_hash bc now tip)] /\
    pending_transactions bc' = fresh (dom (lists bc)) /\
    lists bc' = <[fresh (dom (lists bc)) := [reward miner_address rnd]]> (lists bc).
Proof.
  intros Hmine.
  destruct (mine_block_Returns _ _ _ _ _ _ _ Hmine)
    as [(? & _)|(_ & Hpool & tip & n & Htip & Hpow & ->)]; [done|].
  split; [done|]. exists tip, n. rewrite hash_Block_init in Hpow. done.
Qed.

Lemma pool_add_transaction bc sender recipient amount rnd :
  pool (add_transaction bc sender recipient amount rnd) =
  pool bc ++ [mkTransaction sender recipient amount (generate_transaction_id rnd)].
Proof. unfold pool. cbn [add_transaction lists pending_transactions].
       apply elements_at_insert. Qed.

Lemma pool_mine_block fuel bc miner_address now rnd bc' :
  mine_block fuel bc miner_address now rnd = Returns (true, bc') ->
  pool bc' = [reward miner_address rnd].
Proof.
  intros (_ & tip & n & _ & _ & _ & Hp & Hl)%mine_block_true.
  unfold pool. rewrite Hp, Hl. apply elements_at_insert.
Qed.

Lemma pool_nonempty_step bc bc' : pool bc <> [] -> step bc bc' -> pool bc' <> [].
Proof.
  intros Hpool Hstep.
  destruct Hstep as [bc s r a rnd|bc fuel miner now rnd ok bc' Hmine].
  - rewrite pool_add_transaction. by destruct (pool bc).
  - destruct ok.
    + by rewrite (pool_mine_block _ _ _ _ _ _ Hmine).
    + apply mine_block_Returns in Hmine as [(_ & _ & ->)|(? & _)]; done.
Qed.

Lemma pool_nonempty_rtc bc bc' : pool bc <> [] -> rtc step bc bc' -> pool bc' <> [].
Proof. intros Hpool Hsteps. induction Hsteps; eauto using pool_nonempty_step. Qed.

(** Before the first block is mined the pool may be empty; afterwards it
    never is. *)
Lemma empty_pool_unmined bc :
  reachable bc -> pool bc = [] -> length (chain bc) = 1%nat.
Proof.
  intros (m & now & Hsteps). revert bc Hsteps.
  apply (rtc_ind_r (fun bc => pool bc = [] -> length (chain bc) = 1%nat)); [done|].
  intros bc1 bc2 Hsteps Hstep IH Hempty.
  destruct Hstep as [bc s r a rnd|bc fuel miner t rnd ok bc' Hmine].
  - rewrite pool_add_transaction in Hempty. by destruct (pool bc).
  - destruct ok.
    + by rewrite (pool_mine_block _ _ _ _ _ _ Hmine) in Hempty.
    + apply mine_block_Returns in Hmine as [(_ & _ & ->)|(? & _)]; [|done].
      by apply IH.
Qed.

End Mining.

(** ** The concrete ledger *)

Module ScenarioFacts.
Import Scenario.

Lemma chain_ledger1 : chain ledger1 = [genesis].
Proof. vm_compute. reflexivity. Qed.

Lemma pool_ledger1 : pool ledger1 = [payment].
Proof. vm_compute. reflexivity. Qed.

Lemma mine_ledger1 : mine_block 2 ledger1 "M" mined_at rnd_b = Returns (true, ledger2).
Proof. vm_compute. reflexivity. Qed.

Lemma mine_ledger1' : mine_block 2 ledger1 "M" mined_at' rnd_b = Returns (true, ledger2').
Proof. vm_compute. reflexivity. Qed.

Lemma reachable_ledger1 : reachable ledger1.
Proof. exists ∅, opened. apply rtc_once. apply step_add_transaction. Qed.

Lemma reachable_ledger2 : reachable ledger2.
Proof.
  exists ∅, opened. eapply rtc_l; [apply step_add_transaction|].
  apply rtc_once. eapply step_mine_block. apply mine_ledger1.
Qed.

Lemma reachable_ledger2' : reachable ledger2'.
Proof.
  exists ∅, opened. eapply rtc_l; [apply step_add_transaction|].
  apply rtc_once. eapply step_mine_block. apply mine_ledger1'.
Qed.

Lemma valid_ledger2' : is_chain_valid ledger2' = true.
Proof. vm_compute. reflexivity. Qed.
End ScenarioFacts.

(** ** Properties of [mine_block] *)

Section MiningClaims.
Context {A : Type} `{PyNumber A}.
Implicit Types (bc : Blockchain A) (b : Block).

(** C3: [mine_block] returns [False] exactly when the pending pool is
    empty; then the ledger (chain, pool and lists) is the one it was called
    on. When it returns [True], one block has been appended to the chain.
    With a non-empty pool and a chain that has a last block, the call
    returns [True] as soon as the fuel covers a valid nonce. *)
Theorem mine_block_false_iff_empty_pool fuel bc miner_address now rnd :
  (pool bc = [] -> mine_block fuel bc miner_address now rnd = Returns (false, bc)) /\
  (forall bc', mine_block fuel bc miner_address now rnd = Returns (false, bc') ->
     pool bc = [] /\ bc' = bc) /\
  (forall bc', mine_block fuel bc miner_address now rnd = Returns (true, bc') ->
     pool bc <> [] /\ exists b, chain bc' = chain bc ++ [b]) /\
  (forall tip k, pool bc <> [] -> last (chain bc) = Some tip ->
     valid_proof (candidate_hash bc now tip) k = true -> (N.to_nat k < fuel)%nat ->
     exists bc', mine_block fuel bc miner_address now rnd = Returns (true, bc')).
Proof.
  split; [apply mine_block_empty|]. split; [|split].
  - intros bc' Hmine.
    apply mine_block_Returns in Hmine as [(_ & Hpool & ->)|(? & _)]; done.
  - intros bc' (Hpool & tip & n & _ & _ & Hchain & _)%mine_block_true.
    split; [done|]. eauto.
  - intros tip k Hpool Htip Hk Hfuel. by eapply mine_block_finds.
Qed.

(** C4: if some nonce [k] makes the SHA-256 digest of the candidate's
    nonce-0 hash followed by the decimal digits of [k] start with "0000",
    then [mine_block] (with fuel for [k] tests) returns [True], and the
    nonce of the block it appended is the least such nonce. Every call
    that returns [True] commits that same nonce. *)
Theorem mine_block_least_nonce fuel bc miner_address now rnd tip k :
  pool bc <> [] -> last (chain bc) = Some tip ->
  String.prefix "0000" (SHA256.hexdigest (candidate_hash bc now tip ++ str_N k)%string) = true ->
  (N.to_nat k < fuel)%nat ->
  exists bc' b,
    mine_block fuel bc miner_address now rnd = Returns (true, bc') /\
    last (chain bc') = Some b /\
    String.prefix "0000"
      (SHA256.hexdigest (candidate_hash bc now tip ++ str_N (nonce b))%string) = true /\
    (forall n, (n < nonce b)%N ->
       String.prefix "0000"
         (SHA256.hexdigest (candidate_hash bc now tip ++ str_N n)%string) = false) /\
    (forall fuel' bc'' b'',
       mine_block fuel' bc miner_address now rnd = Returns (true, bc'') ->
       last (chain bc'') = Some b'' -> nonce b'' = nonce b).
Proof.
  intros Hpool Htip Hk Hfuel. apply valid_proof_prefix in Hk.
  destruct (mine_block_finds fuel bc miner_address now rnd tip k) as [bc' Hmine]; try done.
  pose proof Hmine as (_ & tip' & n & Htip' & Hpow & Hchain & _)%mine_block_true.
  assert (tip' = tip) as -> by congruence.
  apply proof_of_work_Some in Hpow as [Hvalid Hleast].
  eexists bc', _. split; [done|]. rewrite Hchain, last_snoc. split; [done|].
  cbn [nonce]. split; [by apply valid_proof_prefix|]. split.
  - intros j Hj. apply not_true_is_false. rewrite <- valid_proof_prefix.
    by rewrite Hleast.
  - intros fuel' bc'' b'' (_ & tip'' & n'' & Htip'' & Hpow'' & Hchain'' & _)%mine_block_true.
    rewrite Hchain'', last_snoc. intros [= <-]. cbn [nonce].
    assert (tip'' = tip) as -> by congruence.
    apply proof_of_work_Some in Hpow'' as [Hvalid'' Hleast''].
    destruct (N.lt_total n'' n) as [Hlt|[Heq|Hlt]]; [|done|].
    + apply Hleast in Hlt. congruence.
    + apply Hleast'' in Hlt. congruence.
Qed.

(** C6: after a call of [mine_block] that returns [True], the pending
    pool is a new list holding exactly the reward transaction (sender
    "Blockchain", recipient the miner, amount 1, the id generated in this
    call); the transactions that were pending are the transactions of the
    appended block. *)
Theorem mine_block_resets_pool fuel bc miner_address now rnd bc' :
  mine_block fuel bc miner_address now rnd = Returns (true, bc') ->
  pool bc' = [mkTransaction "Blockchain" miner_address (py_int 1)
                            (generate_transaction_id rnd)] /\
  String.length (generate_transaction_id rnd) = 10%nat /\
  pending_transactions bc' <> pending_transactions bc /\
  exists b, chain bc' = chain bc ++ [b] /\
            elements_at (lists bc') (transactions b) = pool bc.
Proof.
  intros Hmine. split; [by eapply pool_mine_block|]. split; [done|].
  pose proof Hmine as (Hpool & tip & n & _ & _ & Hchain & Hp & Hl)%mine_block_true.
  apply pool_nonempty_lookup in Hpool. split.
  - rewrite Hp. intros Heq. by eapply fresh_ne.
  - eexists. split; [done|]. cbn [transactions]. rewrite Hl.
    by apply elements_at_fresh.
Qed.

(** C7: the block appended by a call of [mine_block] that returns [True]
    has the chain length as index, the stored hash of the last block as
    [previous_hash], and as [transactions] the list object that was the
    pool; the pool becomes another list, so the elements of the block's list
    stay what the pool held at the call through all later public
    operations. Its stored hash is the hash computed by the constructor with
    nonce 0, whatever nonce was found. *)
Theorem mine_block_keeps_nonce0_hash fuel bc miner_address now rnd bc' :
  reachable bc ->
  mine_block fuel bc miner_address now rnd = Returns (true, bc') ->
  exists tip b,
    last (chain bc) = Some tip /\ chain bc' = chain bc ++ [b] /\
    index b = length (chain bc) /\ timestamp b = now /\
    previous_hash b = hash tip /\
    transactions b = pending_transactions bc /\
    pending_transactions bc' <> transactions b /\
    (forall bc'', rtc step bc' bc'' ->
       elements_at (lists bc'') (transactions b) = pool bc) /\
    hash b = SHA256.hexdigest
               (hash_input (length (chain bc)) now (pool bc) (hash tip) 0).
Proof.
  intros Hwf%wf_reachable Hmine.
  pose proof (wf_mine_block _ _ _ _ _ _ _ Hwf Hmine) as Hwf'.
  pose proof Hmine as (Hpool & tip & n & Htip & _ & Hchain & Hp & Hl)%mine_block_true.
  apply pool_nonempty_lookup in Hpool.
  set (block := mkBlock _ _ _ _ _ _) in Hchain.
  exists tip, block. do 6 (split; [done|]). split; [|split; [|done]].
  - rewrite Hp. subst block. cbn [transactions]. intros Heq. by eapply fresh_ne.
  - intros bc'' Hsteps. destruct (extends_rtc _ _ Hwf' Hsteps) as [_ Hsame].
    rewrite (Hsame block).
    + subst block. cbn [transactions]. rewrite Hl. by apply elements_at_fresh.
    + rewrite Hchain. apply elem_of_app. right. by apply list_elem_of_singleton.
Qed.

(** C10: after a call of [mine_block] that returns [True] the pool holds
    the reward transaction of this call and nothing else, so it is not
    empty, and it stays non-empty through every later public operation:
    [add_transaction] puts one more transaction at the end of the pool, and
    no later call of [mine_block] returns [False]. In a reachable ledger
    with an empty pool no block has been mined yet. *)
Theorem pool_nonempty_after_mining fuel bc miner_address now rnd bc1 bc2 :
  mine_block fuel bc miner_address now rnd = Returns (true, bc1) ->
  rtc step bc1 bc2 ->
  pool bc1 = [mkTransaction "Blockchain" miner_address (py_int 1)
                            (generate_transaction_id rnd)] /\
  pool bc1 <> [] /\ pool bc2 <> [] /\
  (forall fuel' miner' now' rnd' bc3,
     mine_block fuel' bc2 miner' now' rnd' <> Returns (false, bc3)) /\
  (forall sender recipient amount rnd',
     pool (add_transaction bc2 sender recipient amount rnd') =
     pool bc2 ++ [mkTransaction sender recipient amount (generate_transaction_id rnd')] /\
     length (pool (add_transaction bc2 sender recipient amount rnd')) =
     S (length (pool bc2))) /\
  (forall bc0, reachable bc0 -> pool bc0 = [] -> length (chain bc0) = 1%nat).
Proof.
  intros Hmine Hsteps.
  pose proof (pool_mine_block _ _ _ _ _ _ Hmine) as Hreward.
  assert (Hp1 : pool bc1 <> []) by by rewrite Hreward.
  assert (Hp2 : pool bc2 <> []) by by eapply pool_nonempty_rtc.
  split; [done|]. split; [done|]. split; [done|]. split; [|split].
  - intros fuel' miner' now' rnd' bc3 Hfalse.
    apply mine_block_Returns in Hfalse as [(_ & Hempty & _)|(? & _)]; done.
  - intros s r a rnd'. rewrite pool_add_transaction, length_app. split; [done|].
    simpl. lia.
  - apply empty_pool_unmined.
Qed.

End MiningClaims.

(** ** Properties of the queries and of the chain *)

Section LedgerClaims.
Context {A : Type} `{PyNumber A}.
Implicit Types (bc : Blockchain A) (b : Block).

Lemma committed_add_transaction bc sender recipient amount rnd :
  wf bc -> committed (add_transaction bc sender recipient amount rnd) = committed bc.
Proof.
  intros Hwf. destruct (extends_add_transaction bc sender recipient amount rnd Hwf)
    as [_ Hsame].
  unfold committed. cbn [add_transaction chain]. by apply flat_map_agree.
Qed.

Lemma get_balance_balance_of bc address :
  get_balance bc address = balance_of address (committed bc).
Proof.
  rewrite get_balance_committed. unfold balance_of.
  apply fold_left_agree. intros acc t _. apply balance_step_spec.
Qed.

(** C5: [get_balance] is the fold, from 0, over the committed
    transactions in chain order and then in block order, of the step that
    subtracts the amount when the sender is the address and otherwise adds
    it when the recipient is the address. A transaction whose sender and
    recipient are both the address only subtracts. Transactions added to
    the pending pool do not change the balance, and an address that no
    committed transaction names has balance 0. *)
Theorem get_balance_is_fold bc address :
  reachable bc ->
  get_balance bc address = balance_of address (committed bc) /\
  (forall ts t, sender t = address -> recipient t = address ->
     balance_of address (ts ++ [t]) = py_sub (balance_of address ts) (amount t)) /\
  (forall ts t, sender t <> address -> recipient t = address ->
     balance_of address (ts ++ [t]) = py_add (balance_of address ts) (amount t)) /\
  (forall sender recipient amount rnd,
     get_balance (add_transaction bc sender recipient amount rnd) address =
     get_balance bc address) /\
  ((forall t, t ∈ committed bc -> sender t <> address /\ recipient t <> address) ->
   get_balance bc address = py_int 0).
Proof.
  intros Hwf%wf_reachable. split; [apply get_balance_balance_of|].
  split; [|split; [|split]].
  - intros ts t Hs Hr. unfold balance_of. rewrite fold_left_app. simpl.
    unfold debit_else_credit at 1. by rewrite decide_True.
  - intros ts t Hs Hr. unfold balance_of. rewrite fold_left_app. simpl.
    unfold debit_else_credit at 1. by rewrite decide_False, decide_True.
  - intros s r a rnd.
    by rewrite !get_balance_balance_of, committed_add_transaction.
  - intros Hnone. rewrite get_balance_balance_of. unfold balance_of.
    induction (committed bc) as [|t ts IH]; [done|]. simpl.
    destruct (Hnone t) as [Hs Hr]; [by left|].
    unfold debit_else_credit at 2. rewrite !decide_False by done.
    apply IH. intros u Hu. apply Hnone. by right.
Qed.

(** C8: [get_transaction_by_id] returns the first committed transaction
    with the given id, blocks in chain order and transactions in the order
    of their block, and [None] when no committed transaction has the id.
    The pool is not read: adding a pending transaction, whatever its id,
    does not change the result. *)
Theorem get_transaction_by_id_first_committed bc transaction_id :
  reachable bc ->
  (forall t, get_transaction_by_id bc transaction_id = Some t <->
     exists before after,
       committed bc = before ++ t :: after /\ id t = transaction_id /\
       forall u, u ∈ before -> id u <> transaction_id) /\
  (get_transaction_by_id bc transaction_id = None <->
     forall u, u ∈ committed bc -> id u <> transaction_id) /\
  (forall sender recipient amount rnd,
     get_transaction_by_id (add_transaction bc sender recipient amount rnd)
                           transaction_id =
     get_transaction_by_id bc transaction_id).
Proof.
  intros Hwf%wf_reachable. split; [|split].
  - intros t. rewrite get_transaction_by_id_committed. apply find_in_block_Some.
  - rewrite get_transaction_by_id_committed. apply find_in_block_None.
  - intros s r a rnd.
    by rewrite !get_transaction_by_id_committed, committed_add_transaction.
Qed.

(** C9: a new ledger has one block, with index 0, [previous_hash] "0" and
    an empty transaction list. In every ledger reached from it by public
    operations, block 0 is that same block with its list still empty, and
    one more operation keeps the chain as a prefix of the new chain, every
    block of it with the transactions it had. *)
Theorem chain_is_append_only m now bc bc' :
  rtc step (Blockchain_init_in m now) bc -> step bc bc' ->
  exists genesis,
    (chain (Blockchain_init_in m now) = [genesis] /\
     index genesis = 0%nat /\ previous_hash genesis = "0" /\
     elements_at (lists (Blockchain_init_in m now)) (transactions genesis) = []) /\
    (chain bc !! 0%nat = Some genesis /\
     elements_at (lists bc) (transactions genesis) = []) /\
    (chain bc `prefix_of` chain bc' /\
     forall b, b ∈ chain bc ->
       elements_at (lists bc') (transactions b) = elements_at (lists bc) (transactions b)).
Proof.
  intros Hsteps Hstep.
  pose proof (wf_init m now) as Hwf0.
  pose proof (wf_rtc _ _ Hwf0 Hsteps) as Hwf.
  destruct (extends_rtc _ _ Hwf0 Hsteps) as [[k Hk] Hsame].
  revert Hk Hsame Hwf0. rewrite Blockchain_init_in_eq. cbv zeta.
  cbn [chain lists]. intros Hk Hsame Hwf0.
  eexists. split; [|split].
  - split; [done|]. cbn [index previous_hash transactions Block_init].
    split; [done|]. split; [done|].
    rewrite elements_at_insert_ne, elements_at_insert; [done|].
    apply fresh_insert_ne.
  - rewrite Hk. split; [done|]. rewrite Hsame by by left.
    cbn [transactions Block_init].
    rewrite elements_at_insert_ne, elements_at_insert; [done|].
    apply fresh_insert_ne.
  - by apply extends_step.
Qed.

End LedgerClaims.

(** C1: the code does not keep the stored hash equal to the recomputed
    hash. On the concrete ledger, [mine_block] returns [True] and appends a
    block with nonce 1 whose stored hash is still the one computed by the
    constructor with nonce 0; the hash recomputed from the block's fields is
    a different one, and [is_chain_valid] rejects the chain that
    [mine_block] has just built. *)
Theorem mined_block_hash_is_not_recomputed :
  mine_block 2 Scenario.ledger1 "M" Scenario.mined_at Scenario.rnd_b
    = Returns (true, Scenario.ledger2) /\
  last (chain Scenario.ledger2) = Some Scenario.block1 /\
  nonce Scenario.block1 = 1%N /\
  hash Scenario.block1
    = candidate_hash Scenario.ledger1 Scenario.mined_at Scenario.genesis /\
  hash Scenario.block1
    = "fb9a023fd028531d6496598c14ac8cdec9cecf267a689844d8cefc594d8da39f" /\
  calculate_hash (lists Scenario.ledger2) Scenario.block1
    = "949f60b0475eeb28efa2121fcd8941f63c1c87ba84cb891580e66767a15b56ca" /\
  is_chain_valid Scenario.ledger2 = false.
Proof. repeat split; vm_compute; reflexivity. Qed.


Lemma mine_block_false_iff_empty_pool_witness :
  mine_block 2 Scenario.ledger0 "M" Scenario.mined_at Scenario.rnd_b
    = Returns (false, Scenario.ledger0) /\
  exists bc', mine_block 2 Scenario.ledger1 "M" Scenario.mined_at Scenario.rnd_b
              = Returns (true, bc').
Proof.
  split.
  - apply (mine_block_false_iff_empty_pool 2 Scenario.ledger0). vm_compute. reflexivity.
  - destruct (mine_block_false_iff_empty_pool 2 Scenario.ledger1 "M" Scenario.mined_at
                Scenario.rnd_b) as (_ & _ & _ & Hfinds).
    apply (Hfinds Scenario.genesis 1%N).
    + rewrite ScenarioFacts.pool_ledger1. discriminate.
    + vm_compute. reflexivity.
    + vm_compute. reflexivity.
    + vm_compute. lia.
Defined.

Lemma mine_block_least_nonce_witness :
  exists bc' b,
    mine_block 2 Scenario.ledger1 "M" Scenario.mined_at Scenario.rnd_b = Returns (true, bc') /\
    last (chain bc') = Some b /\
    valid_proof (candidate_hash Scenario.ledger1 Scenario.mined_at Scenario.genesis)
                (nonce b) = true /\
    valid_proof (candidate_hash Scenario.ledger1 Scenario.mined_at Scenario.genesis) 0 = false.
Proof.
  destruct (mine_block_least_nonce 2 Scenario.ledger1 "M" Scenario.mined_at Scenario.rnd_b
              Scenario.genesis 1%N) as (bc' & b & Hmine & Hlast & Hvalid & _ & _).
  - rewrite ScenarioFacts.pool_ledger1. discriminate.
  - vm_compute. reflexivity.
  - vm_compute. reflexivity.
  - vm_compute. lia.
  - exists bc', b. split; [exact Hmine|]. split; [exact Hlast|].
    split; [by apply valid_proof_prefix|]. vm_compute. reflexivity.
Defined.

Lemma get_balance_is_fold_witness :
  reachable Scenario.ledger2 /\
  get_balance Scenario.ledger2 "A" = (-10)%Z /\
  get_balance (add_transaction Scenario.ledger2 "C" "A" 7%Z Scenario.rnd_a) "A" = (-10)%Z.
Proof.
  destruct (get_balance_is_fold Scenario.ledger2 "A" ScenarioFacts.reachable_ledger2)
    as (Hfold & _ & _ & Hpending & _).
  split; [apply ScenarioFacts.reachable_ledger2|].
  assert (Hbalance : get_balance Scenario.ledger2 "A" = (-10)%Z).
  { rewrite Hfold. vm_compute. reflexivity. }
  split; [exact Hbalance|]. rewrite Hpending. exact Hbalance.
Defined.

Lemma mine_block_resets_pool_witness :
  pool Scenario.ledger2 = [Scenario.reward_M] /\
  exists b, chain Scenario.ledger2 = chain Scenario.ledger1 ++ [b] /\
            elements_at (lists Scenario.ledger2) (transactions b) = [Scenario.payment].
Proof.
  destruct (mine_block_resets_pool 2 Scenario.ledger1 "M" Scenario.mined_at Scenario.rnd_b
              Scenario.ledger2 ScenarioFacts.mine_ledger1) as (Hpool & _ & _ & b & Hchain & Hb).
  split; [exact Hpool|]. exists b. split; [exact Hchain|].
  rewrite Hb. apply ScenarioFacts.pool_ledger1.
Defined.

Lemma mine_block_keeps_nonce0_hash_witness :
  exists b,
    last (chain Scenario.ledger2) = Some b /\ index b = 1%nat /\
    hash b = SHA256.hexdigest
               (hash_input 1 Scenario.mined_at [Scenario.payment]
                           (hash Scenario.genesis) 0).
Proof.
  destruct (mine_block_keeps_nonce0_hash 2 Scenario.ledger1 "M" Scenario.mined_at
              Scenario.rnd_b Scenario.ledger2 ScenarioFacts.reachable_ledger1
              ScenarioFacts.mine_ledger1)
    as (tip & b & Htip & Hchain & Hindex & _ & _ & _ & _ & _ & Hhash).
  rewrite ScenarioFacts.pool_ledger1, ScenarioFacts.chain_ledger1 in Hhash.
  rewrite ScenarioFacts.chain_ledger1 in Htip, Hindex. injection Htip as <-.
  exists b. rewrite Hchain, last_snoc. split; [reflexivity|].
  split; [exact Hindex | exact Hhash].
Defined.

Lemma get_transaction_by_id_first_committed_witness :
  reachable Scenario.ledger1 /\
  Scenario.payment ∈ pool Scenario.ledger1 /\
  get_transaction_by_id Scenario.ledger1 (id Scenario.payment) = None.
Proof.
  destruct (get_transaction_by_id_first_committed Scenario.ledger1 (id Scenario.payment)
              ScenarioFacts.reachable_ledger1) as (_ & Hnone & _).
  split; [apply ScenarioFacts.reachable_ledger1|]. split.
  - rewrite ScenarioFacts.pool_ledger1. apply list_elem_of_singleton. reflexivity.
  - apply Hnone. intros u Hu. vm_compute in Hu. by apply elem_of_nil in Hu.
Defined.

Lemma chain_is_append_only_witness :
  chain Scenario.ledger1 `prefix_of` chain Scenario.ledger2 /\
  chain Scenario.ledger1 !! 0%nat = Some Scenario.genesis.
Proof.
  destruct (chain_is_append_only ∅ Scenario.opened Scenario.ledger1 Scenario.ledger2)
    as (g & (Hinit & _) & (Hfirst & _) & (Hprefix & _)).
  - apply rtc_once. apply step_add_transaction.
  - eapply step_mine_block. apply ScenarioFacts.mine_ledger1.
  - split; [exact Hprefix|]. vm_compute. reflexivity.
Defined.

Lemma pool_nonempty_after_mining_witness :
  pool Scenario.ledger2 = [Scenario.reward_M] /\
  pool Scenario.ledger2 <> [] /\
  forall bc3, mine_block 2 Scenario.ledger2 "M" Scenario.mined_at Scenario.rnd_b
              <> Returns (false, bc3).
Proof.
  destruct (pool_nonempty_after_mining 2 Scenario.ledger1 "M" Scenario.mined_at
              Scenario.rnd_b Scenario.ledger2 Scenario.ledger2 ScenarioFacts.mine_ledger1
              (rtc_refl _ _)) as (Hreward & Hpool & _ & Hmine & _).
  split; [exact Hreward|]. split; [exact Hpool|]. intros bc3. apply Hmine.
Defined.

(** * Further properties *)

(** ** The format of a digest *)

Section DigestFormat.
Local Open Scope Z_scope.

Lemma be_bytes_range n x : Forall (fun b => 0 <= b < 256) (SHA256.be_bytes n x).
Proof.
  induction n as [|n IH]; simpl; constructor; [|done].
  change 255 with (Z.ones 8). rewrite Z.land_ones by lia.
  apply Z.mod_pos_bound. lia.
Qed.

Lemma compress_length h block : length h = 8%nat -> length (SHA256.compress h block) = 8%nat.
Proof.
  intros Hh. unfold SHA256.compress. rewrite length_zip_with, Hh. reflexivity.
Qed.

Lemma blocks_length n h bs : length h = 8%nat -> length (SHA256.blocks n h bs) = 8%nat.
Proof.
  revert h bs. induction n as [|n IH]; intros h bs Hh; simpl; [done|].
  apply IH. by apply compress_length.
Qed.

Lemma digest_length msg : length (SHA256.digest msg) = 32%nat.
Proof.
  unfold SHA256.digest.
  pose proof (blocks_length (length (SHA256.pad msg) / 64) SHA256.IV (SHA256.pad msg)
                eq_refl) as Hlen.
  destruct (SHA256.blocks _ _ _) as [|w0 [|w1 [|w2 [|w3 [|w4 [|w5 [|w6 [|w7 [|w8 ws]]]]]]]]];
    try discriminate.
  reflexivity.
Qed.

Lemma digest_range msg : Forall (fun b => 0 <= b < 256) (SHA256.digest msg).
Proof.
  unfold SHA256.digest. induction (SHA256.blocks _ _ _) as [|w ws IH]; cbn [flat_map]; [done|].
  apply Forall_app. split; [apply (be_bytes_range 4)|done].
Qed.

Lemma nibble_cases d :
  0 <= d < 16 ->
  d = 0 \/ d = 1 \/ d = 2 \/ d = 3 \/ d = 4 \/ d = 5 \/ d = 6 \/ d = 7 \/
  d = 8 \/ d = 9 \/ d = 10 \/ d = 11 \/ d = 12 \/ d = 13 \/ d = 14 \/ d = 15.
Proof. lia. Qed.

Lemma hex_digit_alphabet d :
  0 <= d < 16 -> occurs (SHA256.hex_digit d) "0123456789abcdef" = true.
Proof.
  intros Hd. pose proof (nibble_cases d Hd) as H.
  repeat destruct H as [H|H]; subst; reflexivity.
Qed.

Lemma hex_digit_zero d : 0 <= d < 16 -> SHA256.hex_digit d = "0"%char <-> d = 0.
Proof.
  intros Hd. pose proof (nibble_cases d Hd) as H.
  repeat destruct H as [H|H]; subst; (split; [done || discriminate | done || lia]).
Qed.

Lemma high_nibble_range b : 0 <= b < 256 -> 0 <= Z.shiftr b 4 < 16.
Proof.
  intros Hb. rewrite Z.shiftr_div_pow2 by lia. change (2 ^ 4) with 16.
  split; [apply Z.div_pos; lia | apply Z.div_lt_upper_bound; lia].
Qed.

Lemma low_nibble_range b : 0 <= Z.land b 15 < 16.
Proof.
  change 15 with (Z.ones 4). rewrite Z.land_ones by lia. apply Z.mod_pos_bound. lia.
Qed.

Lemma byte_zero_nibbles b :
  0 <= b < 256 -> Z.shiftr b 4 = 0 /\ Z.land b 15 = 0 <-> b = 0.
Proof.
  intros Hb. rewrite Z.shiftr_div_pow2 by lia.
  change 15 with (Z.ones 4). rewrite Z.land_ones by lia. change (2 ^ 4) with 16.
  Z.to_euclidean_division_equations. lia.
Qed.

Lemma hex_of_cons (b : Z) (bs : list Z) :
  fold_right (fun b acc => (SHA256.hex_byte b ++ acc)%string) EmptyString (b :: bs) =
  String (SHA256.hex_digit (Z.shiftr b 4))
         (String (SHA256.hex_digit (Z.land b 15)) (fold_right (fun b acc => (SHA256.hex_byte b ++ acc)%string) EmptyString bs)).
Proof. reflexivity. Qed.

Lemma hex_of_length (bs : list Z) : String.length (fold_right (fun b acc => (SHA256.hex_byte b ++ acc)%string) EmptyString bs) = (2 * length bs)%nat.
Proof.
  induction bs as [|b bs IH]; [done|].
  rewrite hex_of_cons. cbn [String.length]. rewrite IH. simpl. lia.
Qed.

Lemma hex_of_alphabet (bs : list Z) :
  Forall (fun b => 0 <= b < 256) bs ->
  Forall (fun c => occurs c "0123456789abcdef" = true) (list_ascii_of_string (fold_right (fun b acc => (SHA256.hex_byte b ++ acc)%string) EmptyString bs)).
Proof.
  induction 1 as [|b bs Hb _ IH]; [constructor|].
  rewrite hex_of_cons. cbn [list_ascii_of_string].
  constructor; [apply hex_digit_alphabet, high_nibble_range, Hb|].
  constructor; [apply hex_digit_alphabet, low_nibble_range|done].
Qed.

Lemma hexdigest_length s : String.length (SHA256.hexdigest s) = 64%nat.
Proof. unfold SHA256.hexdigest. by rewrite hex_of_length, digest_length. Qed.

Lemma hexdigest_alphabet s :
  Forall (fun c => occurs c "0123456789abcdef" = true)
         (list_ascii_of_string (SHA256.hexdigest s)).
Proof. unfold SHA256.hexdigest. apply hex_of_alphabet, digest_range. Qed.

(** X1: a digest in hexadecimal is 64 characters long and every character
    is one of [0123456789abcdef]. *)
Theorem hexdigest_format s :
  String.length (SHA256.hexdigest s) = 64%nat /\
  Forall (fun c => occurs c "0123456789abcdef" = true)
         (list_ascii_of_string (SHA256.hexdigest s)).
Proof. split; [apply hexdigest_length | apply hexdigest_alphabet]. Qed.

(** X2: [valid_proof] accepts a nonce exactly when the first two bytes (16
    bits) of the SHA-256 digest of the hash followed by the nonce's decimal
    digits are zero. *)
Theorem valid_proof_leading_zero_bytes block_hash n :
  valid_proof block_hash n = true <->
  firstn 2 (SHA256.digest (SHA256.bytes_of_string (block_hash ++ str_N n)%string)) = [0; 0].
Proof.
  unfold valid_proof, SHA256.hexdigest. rewrite String.eqb_eq.
  pose proof (digest_length (SHA256.bytes_of_string (block_hash ++ str_N n)%string)) as Hlen.
  pose proof (digest_range (SHA256.bytes_of_string (block_hash ++ str_N n)%string)) as Hrange.
  destruct (SHA256.digest _) as [|b0 [|b1 bs]]; try discriminate.
  apply Forall_cons in Hrange as [Hb0 Hrange]. apply Forall_cons in Hrange as [Hb1 _].
  rewrite !hex_of_cons. cbn [firstn substring].
  assert (Hsub : forall s, substring 0 0 s = EmptyString) by (by intros []).
  rewrite Hsub.
  pose proof (hex_digit_zero _ (high_nibble_range b0 Hb0)) as H0h.
  pose proof (hex_digit_zero _ (low_nibble_range b0)) as H0l.
  pose proof (hex_digit_zero _ (high_nibble_range b1 Hb1)) as H1h.
  pose proof (hex_digit_zero _ (low_nibble_range b1)) as H1l.
  pose proof (byte_zero_nibbles b0 Hb0) as Hz0.
  pose proof (byte_zero_nibbles b1 Hb1) as Hz1.
  change 15 with 0xf in *.
  split.
  - intros [= E0 E1 E2 E3]. f_equal; [|f_equal]; tauto.
  - intros [= -> ->]. reflexivity.
Qed.
End DigestFormat.

(** ** Invariants of the chain *)

Section ChainInvariants.
Context {A : Type} `{PyNumber A}.
Implicit Types (bc : Blockchain A) (b : Block).

(** What holds of the block at position [i] of a ledger. *)
Lemma chain_facts bc :
  reachable bc ->
  forall i b, chain bc !! i = Some b ->
    index b = i /\
    hash b = SHA256.hexdigest
               (hash_input i (timestamp b) (elements_at (lists bc) (transactions b))
                           (previous_hash b) 0) /\
    match i with
    | O => previous_hash b = "0" /\ nonce b = 0%N
    | S j =>
        exists previous_block,
          chain bc !! j = Some previous_block /\
          previous_hash b = hash previous_block /\
          valid_proof (hash b) (nonce b) = true /\
          forall k, (k < nonce b)%N -> valid_proof (hash b) k = false
    end.
Proof.
  intros (m & now & Hsteps). revert bc Hsteps.
  apply (rtc_ind_r (fun bc => forall i b, chain bc !! i = Some b -> _)).
  - rewrite Blockchain_init_in_eq. cbv zeta. cbn [chain lists].
    intros [|i] b; [|done]. intros [= <-]. cbn [index timestamp transactions
      previous_hash nonce hash Block_init].
    split; [done|]. split; [|done].
    unfold calculate_hash. cbn [index timestamp transactions previous_hash nonce].
    by rewrite (elements_at_insert_ne _ _ _ _ (fresh_insert_ne m [])).
  - intros bc bc' Hsteps Hstep IH i b Hb.
    pose proof (wf_rtc _ _ (wf_init m now) Hsteps) as Hwf.
    destruct Hstep as [bc s r a rnd|bc fuel miner t rnd ok bc' Hmine].
    + cbn [add_transaction chain lists] in *.
      destruct (extends_add_transaction bc s r a rnd Hwf) as [_ Hsame].
      cbn [add_transaction chain lists] in Hsame.
      rewrite Hsame by (by eapply list_elem_of_lookup_2).
      by apply IH.
    + destruct ok; cycle 1.
      { apply mine_block_Returns in Hmine as [(_ & _ & ->)|(? & _)]; [by apply IH|done]. }
      pose proof Hmine as (Hpool & tip & n & Htip & Hpow & Hchain & Hp & Hl)%mine_block_true.
      rewrite Hchain in Hb. rewrite Hl.
      destruct (decide (i < length (chain bc))%nat) as [Hlt|Hge].
      * rewrite lookup_app_l in Hb by done.
        rewrite elements_at_fresh
          by (eapply (wf_blocks _ Hwf), list_elem_of_lookup_2, Hb).
        destruct (IH i b Hb) as (Hi & Hh & Hrest). split; [done|]. split; [done|].
        destruct i as [|j]; [done|].
        destruct Hrest as (prev & Hprev & Hrest). exists prev. split; [|done].
        rewrite Hchain. by apply lookup_app_l_Some.
      * rewrite lookup_app_r in Hb by lia.
        destruct (i - length (chain bc))%nat as [|d] eqn:Hd; [|done].
        assert (i = length (chain bc)) as -> by lia.
        injection Hb as <-. cbn [index timestamp transactions previous_hash nonce hash].
        rewrite elements_at_fresh by by apply pool_nonempty_lookup.
        split; [done|]. split; [done|].
        rewrite last_lookup in Htip.
        destruct (length (chain bc)) as [|j] eqn:Hlen;
          [by apply lookup_lt_Some in Htip; rewrite Hlen in Htip; lia|].
        exists tip. rewrite Hchain. split; [by apply lookup_app_l_Some|].
        split; [done|]. by apply proof_of_work_Some in Hpow.
Qed.

(** X3: in every ledger reached by public operations, the index of a block
    is its position in the chain. *)
Theorem block_index_is_position bc i b :
  reachable bc -> chain bc !! i = Some b -> index b = i.
Proof. intros Hreach Hb. by destruct (chain_facts bc Hreach i b Hb) as (Hi & _). Qed.

Lemma block_hash_is_digest bc i b :
  reachable bc -> chain bc !! i = Some b -> exists s, hash b = SHA256.hexdigest s.
Proof. intros Hreach Hb. destruct (chain_facts bc Hreach i b Hb) as (_ & Hh & _). eauto. Qed.

(** X4: in every ledger reached by public operations, a stored hash is 64
    characters long, each block after the first has the stored hash of the
    block before it as [previous_hash], and the genesis block is the only
    block whose [previous_hash] is "0". *)
Theorem reachable_chain_is_linked bc i b :
  reachable bc -> chain bc !! i = Some b ->
  String.length (hash b) = 64%nat /\
  (previous_hash b = "0" <-> i = 0%nat) /\
  (forall j, i = S j ->
     exists previous_block,
       chain bc !! j = Some previous_block /\ previous_hash b = hash previous_block).
Proof.
  intros Hreach Hb. destruct (chain_facts bc Hreach i b Hb) as (_ & Hh & Hi).
  split; [rewrite Hh; apply hexdigest_length|]. split.
  - destruct i as [|j]; [by destruct Hi|].
    destruct Hi as (prev & Hprev & Hlink & _). split; [|done].
    intros Hzero. rewrite Hlink in Hzero.
    destruct (block_hash_is_digest bc j prev Hreach Hprev) as [s Hs].
    pose proof (hexdigest_length s) as Hlen.
    rewrite <- Hs, Hzero in Hlen. discriminate.
  - intros j ->. destruct Hi as (prev & Hprev & Hlink & _). eauto.
Qed.

(** X5: in every ledger reached by public operations, the genesis block has
    nonce 0 and every later block has as nonce the least number that
    [valid_proof] accepts for the block's stored hash. *)
Theorem mined_block_carries_least_proof bc i b :
  reachable bc -> chain bc !! i = Some b ->
  (i = 0%nat -> nonce b = 0%N) /\
  ((1 <= i)%nat ->
     valid_proof (hash b) (nonce b) = true /\
     forall k, (k < nonce b)%N -> valid_proof (hash b) k = false).
Proof.
  intros Hreach Hb. destruct (chain_facts bc Hreach i b Hb) as (_ & _ & Hi).
  split.
  - intros ->. by destruct Hi.
  - intros Hpos. destruct i as [|j]; [lia|].
    by destruct Hi as (prev & _ & _ & Hvalid & Hleast).
Qed.

(** X6: on a ledger reached by public operations, [is_chain_valid] returns
    [True] exactly when, for every block after the genesis block, hashing
    its fields with its nonce gives the same digest as hashing them with
    nonce 0; so it returns [True] when every block has nonce 0. *)
Theorem is_chain_valid_reachable bc :
  reachable bc ->
  (is_chain_valid bc = true <->
   forall i b, (1 <= i)%nat -> chain bc !! i = Some b ->
     SHA256.hexdigest
       (hash_input i (timestamp b) (elements_at (lists bc) (transactions b))
                   (previous_hash b) (nonce b)) =
     SHA256.hexdigest
       (hash_input i (timestamp b) (elements_at (lists bc) (transactions b))
                   (previous_hash b) 0)) /\
  ((forall b, b ∈ chain bc -> nonce b = 0%N) -> is_chain_valid bc = true).
Proof.
  intros Hreach.
  assert (Hiff : is_chain_valid bc = true <->
    forall i b, (1 <= i)%nat -> chain bc !! i = Some b ->
     SHA256.hexdigest
       (hash_input i (timestamp b) (elements_at (lists bc) (transactions b))
                   (previous_hash b) (nonce b)) =
     SHA256.hexdigest
       (hash_input i (timestamp b) (elements_at (lists bc) (transactions b))
                   (previous_hash b) 0)).
  { rewrite is_chain_valid_true. split.
    - intros Hall i b Hi Hb.
      destruct (chain_facts bc Hreach i b Hb) as (Hidx & Hh & Hrest).
      destruct i as [|j]; [lia|]. destruct Hrest as (prev & Hprev & _).
      destruct (Hall (S j) b prev Hi Hb) as [Hcalc _].
      { by rewrite Nat.sub_1_r. }
      rewrite <- Hh, Hcalc. unfold calculate_hash. by rewrite Hidx.
    - intros Hall i b prev Hi Hb Hprev.
      destruct (chain_facts bc Hreach i b Hb) as (Hidx & Hh & Hrest).
      destruct i as [|j]; [lia|]. destruct Hrest as (prev' & Hprev' & Hlink & _).
      rewrite Nat.sub_1_r in Hprev. cbn [Nat.pred] in Hprev.
      assert (prev' = prev) as -> by congruence. split; [|done].
      rewrite Hh at 1. rewrite <- (Hall (S j) b Hi Hb).
      unfold calculate_hash. by rewrite Hidx. }
  split; [done|].
  intros Hzero. apply Hiff. intros i b Hi Hb.
  by rewrite (Hzero b) by by eapply list_elem_of_lookup_2.
Qed.

(** X7: in every ledger reached by public operations the chain is not
    empty: it has a last block, at position [len(self.chain) - 1], so
    [self.chain[-1]] in [mine_block] does not raise [IndexError]. *)
Theorem mine_block_no_index_error bc :
  reachable bc ->
  (exists tip, last (chain bc) = Some tip /\
               chain bc !! (length (chain bc) - 1)%nat = Some tip) /\
  (forall fuel miner_address now rnd,
     mine_block fuel bc miner_address now rnd <> Raises "IndexError").
Proof.
  intros Hwf%wf_reachable. pose proof (wf_chain _ Hwf) as Hchain. split.
  - destruct (last (chain bc)) as [tip|] eqn:Htip.
    + exists tip. split; [done|]. rewrite last_lookup in Htip.
      by rewrite Nat.sub_1_r.
    + by apply last_None in Htip.
  - intros fuel miner_address now rnd. by apply mine_block_never_raises.
Qed.

(** *** What [is_chain_valid] depends on *)

Lemma is_chain_valid_agree bc bc' :
  chain bc' = chain bc ->
  (forall b, b ∈ chain bc ->
     elements_at (lists bc') (transactions b) = elements_at (lists bc) (transactions b)) ->
  is_chain_valid bc' = is_chain_valid bc.
Proof.
  intros Hchain Hsame. apply eq_iff_eq_true. rewrite !is_chain_valid_true, Hchain.
  assert (Hcalc : forall i b, chain bc !! i = Some b ->
            calculate_hash (lists bc') b = calculate_hash (lists bc) b).
  { intros i b Hb. unfold calculate_hash. rewrite Hsame; [done|].
    by eapply list_elem_of_lookup_2. }
  split; intros Hall i cur prev Hi Hcur Hprev.
  - rewrite <- (Hcalc i cur Hcur). by apply (Hall i).
  - rewrite (Hcalc i cur Hcur). by apply (Hall i).
Qed.

(** X8: [add_transaction] does not change the result of
    [is_chain_valid]. *)
Theorem add_transaction_keeps_validity bc sender recipient amount rnd :
  reachable bc ->
  is_chain_valid (add_transaction bc sender recipient amount rnd) = is_chain_valid bc.
Proof.
  intros Hwf%wf_reachable. apply is_chain_valid_agree; [done|].
  apply (extends_add_transaction bc sender recipient amount rnd Hwf).
Qed.

Lemma is_chain_valid_extends bc bc' :
  extends bc bc' -> is_chain_valid bc' = true -> is_chain_valid bc = true.
Proof.
  intros [[k Hk] Hsame]. rewrite !is_chain_valid_true.
  intros Hall i cur prev Hi Hcur Hprev.
  destruct (Hall i cur prev Hi) as [Hh Hl].
  - rewrite Hk. by apply lookup_app_l_Some.
  - rewrite Hk. by apply lookup_app_l_Some.
  - split; [|done]. rewrite Hh. unfold calculate_hash.
    rewrite Hsame; [done|]. by eapply list_elem_of_lookup_2.
Qed.

(** X17: once [is_chain_valid] returns [False] on a ledger reached by
    public operations, it returns [False] after any further public
    operations. *)
Theorem validity_is_never_regained bc bc' :
  reachable bc -> rtc step bc bc' ->
  is_chain_valid bc = false -> is_chain_valid bc' = false.
Proof.
  intros Hwf%wf_reachable Hsteps Hinvalid.
  destruct (is_chain_valid bc') eqn:Hvalid; [|done].
  apply (is_chain_valid_extends bc bc') in Hvalid; [congruence|].
  by apply extends_rtc.
Qed.

(** X9: [add_block] appends any block without checking it. Afterwards
    [is_chain_valid] returns [True] exactly when it did before, the new
    block's stored hash is the hash recomputed from its fields and its
    [previous_hash] is the stored hash of the former last block; appended to
    an empty chain, a block is never checked. *)
Theorem add_block_validity bc b :
  (chain bc = [] -> is_chain_valid (add_block bc b) = true) /\
  (forall tip, last (chain bc) = Some tip ->
     is_chain_valid (add_block bc b) =
     is_chain_valid bc
     && String.eqb (hash b) (calculate_hash (lists bc) b)
     && String.eqb (previous_hash b) (hash tip)).
Proof.
  split.
  - intros Hnil. unfold is_chain_valid, add_block. cbn [chain lists]. by rewrite Hnil.
  - intros tip Htip. apply eq_iff_eq_true.
    rewrite !andb_true_iff, !String.eqb_eq, !is_chain_valid_true.
    cbn [add_block chain lists].
    rewrite last_lookup in Htip.
    assert (Hlen : (0 < length (chain bc))%nat).
    { apply lookup_lt_Some in Htip. destruct (chain bc); simpl in *; lia. }
    split.
    + intros Hall. split; [split|].
      * intros i cur prev Hi Hcur Hprev.
        apply (Hall i); [done| |]; by apply lookup_app_l_Some.
      * apply (Hall (length (chain bc)) b tip); [lia| |].
        -- by rewrite lookup_app_r, Nat.sub_diag by lia.
        -- rewrite lookup_app_l by lia. by rewrite Nat.sub_1_r.
      * apply (Hall (length (chain bc)) b tip); [lia| |].
        -- by rewrite lookup_app_r, Nat.sub_diag by lia.
        -- rewrite lookup_app_l by lia. by rewrite Nat.sub_1_r.
    + intros [[Hall Hhash] Hlink] i cur prev Hi Hcur Hprev.
      destruct (decide (i < length (chain bc))%nat) as [Hlt|Hge].
      * rewrite lookup_app_l in Hcur by lia. rewrite lookup_app_l in Hprev by lia.
        by apply (Hall i).
      * rewrite lookup_app_r in Hcur by lia.
        destruct (i - length (chain bc))%nat as [|d] eqn:Hd; [|done].
        injection Hcur as <-. assert (i = length (chain bc)) as -> by lia.
        rewrite lookup_app_l in Hprev by lia. rewrite Nat.sub_1_r in Hprev.
        assert (prev = tip) as -> by congruence. done.
Qed.

(** X10: on a chain that passes [is_chain_valid], overwriting the stored
    hash of a block with another value makes the check fail, for a block
    after the genesis block and for the genesis block of a chain with at
    least two blocks; on a chain of one block the check still passes. *)
Theorem stored_hash_tampering_detected bc i b s :
  is_chain_valid bc = true -> chain bc !! i = Some b -> s <> hash b ->
  ((1 <= i)%nat \/ (2 <= length (chain bc))%nat ->
     is_chain_valid (tamper i (set_hash s) bc) = false) /\
  (length (chain bc) = 1%nat -> is_chain_valid (tamper i (set_hash s) bc) = true).
Proof.
  intros Hvalid Hb Hs. rewrite is_chain_valid_true in Hvalid. split.
  - intros Hcase. destruct (decide (1 <= i)%nat) as [Hi|Hi].
    + assert (is_Some (chain bc !! (i - 1)%nat)) as [prev Hprev].
      { apply lookup_lt_is_Some. apply lookup_lt_Some in Hb. lia. }
      destruct (Hvalid i b prev Hi Hb Hprev) as [Hh _].
      apply (is_chain_valid_false _ i (set_hash s b)); [done| |].
      * cbn [tamper chain]. by rewrite list_lookup_alter_eq, Hb.
      * left. cbn [tamper lists set_hash hash]. by rewrite Hh in Hs.
    + assert (i = 0%nat) as -> by lia. destruct Hcase as [?|Hlen]; [lia|].
      assert (is_Some (chain bc !! 1%nat)) as [next Hnext]
        by (apply lookup_lt_is_Some; lia).
      destruct (Hvalid 1%nat next b (le_n 1) Hnext Hb) as [_ Hlink].
      apply (is_chain_valid_false _ 1%nat next); [done| |].
      * cbn [tamper chain]. by rewrite list_lookup_alter_ne.
      * right. cbn [tamper chain]. intros p.
        change (1 - 1)%nat with 0%nat. rewrite list_lookup_alter_eq, Hb.
        intros [= <-]. cbn [set_hash hash]. congruence.
  - intros Hlen. unfold is_chain_valid. cbn [tamper chain lists].
    by rewrite length_alter, Hlen.
Qed.

End ChainInvariants.

(** ** Tampering with a block *)

Section Tampering.
Context {A : Type} `{PyNumber A}.
Implicit Types (bc : Blockchain A) (b : Block).







End Tampering.

(** ** How the operations compose *)

Section Composition.
Context {A : Type} `{PyNumber A}.
Implicit Types (bc : Blockchain A) (b : Block).

Lemma extends_committed bc bc' :
  extends bc bc' -> committed bc `prefix_of` committed bc'.
Proof.
  intros [[k Hk] He]. unfold committed. rewrite Hk, flat_map_app.
  rewrite (flat_map_agree (fun b => elements_at (lists bc') (transactions b))
                          (fun b => elements_at (lists bc) (transactions b)) (chain bc));
    [by eexists | done].
Qed.

(** Mining moves the pool, as it is, behind the committed transactions. *)
Lemma committed_mine_block fuel bc miner_address now rnd bc' :
  wf bc -> mine_block fuel bc miner_address now rnd = Returns (true, bc') ->
  committed bc' = committed bc ++ pool bc.
Proof.
  intros Hwf Hmine.
  destruct (extends_mine_block _ _ _ _ _ _ _ Hwf Hmine) as [_ Hsame].
  pose proof Hmine as (Hpool & tip & n & _ & _ & Hchain & _ & Hl)%mine_block_true.
  unfold committed. rewrite Hchain, flat_map_app. f_equal.
  - by apply flat_map_agree.
  - cbn [flat_map transactions]. rewrite app_nil_r, Hl.
    by apply elements_at_fresh, pool_nonempty_lookup.
Qed.

(** X11: once [get_transaction_by_id] finds a transaction for an id, it
    returns that same transaction after any further public operations. *)
Theorem get_transaction_by_id_stable bc bc' transaction_id t :
  reachable bc -> rtc step bc bc' ->
  get_transaction_by_id bc transaction_id = Some t ->
  get_transaction_by_id bc' transaction_id = Some t.
Proof.
  intros Hwf%wf_reachable Hsteps.
  destruct (extends_committed _ _ (extends_rtc _ _ Hwf Hsteps)) as [k Hk].
  rewrite !get_transaction_by_id_committed, Hk, find_in_block_app. by intros ->.
Qed.

Lemma get_balance_mine_block fuel bc miner_address now rnd bc' address :
  wf bc -> mine_block fuel bc miner_address now rnd = Returns (true, bc') ->
  get_balance bc' address =
  fold_left (balance_step address) (pool bc) (get_balance bc address).
Proof.
  intros Hwf Hmine.
  rewrite !get_balance_committed, (committed_mine_block _ _ _ _ _ _ Hwf Hmine).
  apply fold_left_app.
Qed.

(** X12: after a call of [mine_block] that returns [True], the balance of
    an address is its balance before the call, updated by the transactions
    that were pending, in the order of the pool. *)
Theorem get_balance_after_mining fuel bc miner_address now rnd bc' address :
  reachable bc -> mine_block fuel bc miner_address now rnd = Returns (true, bc') ->
  get_balance bc' address =
  fold_left (balance_step address) (pool bc) (get_balance bc address).
Proof. intros Hwf%wf_reachable Hmine. by eapply get_balance_mine_block. Qed.

(** X13: after a call of [mine_block] that returns [True],
    [get_transaction_by_id] returns what it returned before when that was a
    transaction, and otherwise the first transaction with the id among those
    that were pending. *)
Theorem get_transaction_by_id_after_mining fuel bc miner_address now rnd bc' transaction_id :
  reachable bc -> mine_block fuel bc miner_address now rnd = Returns (true, bc') ->
  get_transaction_by_id bc' transaction_id =
  match get_transaction_by_id bc transaction_id with
  | Some t => Some t
  | None => find_in_block transaction_id (pool bc)
  end.
Proof.
  intros Hwf%wf_reachable Hmine.
  rewrite !get_transaction_by_id_committed, (committed_mine_block _ _ _ _ _ _ Hwf Hmine).
  apply find_in_block_app.
Qed.

(** X14: a transaction added with an id that no committed or pending
    transaction has is not found by [get_transaction_by_id] while it is
    pending, and is the transaction found for its id once a block has been
    mined. *)
Theorem added_transaction_found_after_mining
    fuel bc sender recipient amount rnd miner_address now rnd' bc' :
  reachable bc ->
  (forall u, u ∈ committed bc ++ pool bc -> id u <> generate_transaction_id rnd) ->
  mine_block fuel (add_transaction bc sender recipient amount rnd) miner_address now rnd'
    = Returns (true, bc') ->
  get_transaction_by_id (add_transaction bc sender recipient amount rnd)
                        (generate_transaction_id rnd) = None /\
  get_transaction_by_id bc' (generate_transaction_id rnd)
    = Some (mkTransaction sender recipient amount (generate_transaction_id rnd)).
Proof.
  intros Hreach Hfresh Hmine. pose proof (wf_reachable _ Hreach) as Hwf.
  assert (Hnone : get_transaction_by_id (add_transaction bc sender recipient amount rnd)
                    (generate_transaction_id rnd) = None).
  { rewrite get_transaction_by_id_committed, committed_add_transaction by done.
    apply find_in_block_None. intros u Hu. apply Hfresh, elem_of_app. by left. }
  split; [done|].
  rewrite !get_transaction_by_id_committed in *.
  rewrite (committed_mine_block _ _ _ _ _ _ (wf_add_transaction _ _ _ _ _ Hwf) Hmine).
  rewrite find_in_block_app, Hnone, pool_add_transaction, find_in_block_app.
  rewrite (proj2 (find_in_block_None _ (pool bc))).
  - cbn [find_in_block id]. by rewrite String.eqb_refl.
  - intros u Hu. apply Hfresh, elem_of_app. by right.
Qed.

(** *** Transaction ids *)

Lemma get_occurs n s c : String.get n s = Some c -> occurs c s = true.
Proof.
  revert n. induction s as [|d s IH]; intros n; [done|]. simpl.
  destruct n as [|n].
  - intros [= ->]. by rewrite Ascii.eqb_refl.
  - intros Hc. rewrite (IH n Hc). apply orb_true_r.
Qed.

Lemma generate_transaction_id_well_formed rnd :
  String.length (generate_transaction_id rnd) = 10%nat /\
  Forall (fun c => occurs c id_population = true)
         (list_ascii_of_string (generate_transaction_id rnd)).
Proof.
  split; [reflexivity|]. unfold generate_transaction_id.
  rewrite list_ascii_of_string_of_list_ascii. apply Forall_map, Forall_forall.
  intros i _. cbn beta.
  destruct (String.get _ id_population) as [c|] eqn:Hc; [|reflexivity].
  by eapply get_occurs.
Qed.

(** X15: in every ledger reached by public operations, the id of every
    committed or pending transaction has 10 characters, each a letter or a
    digit. *)
Theorem transaction_ids_well_formed bc t :
  reachable bc -> t ∈ committed bc ++ pool bc ->
  String.length (id t) = 10%nat /\
  Forall (fun c => occurs c id_population = true) (list_ascii_of_string (id t)).
Proof.
  intros (m & now & Hsteps). revert bc Hsteps t.
  apply (rtc_ind_r (fun bc => forall t, t ∈ committed bc ++ pool bc -> _)).
  - intros t. rewrite Blockchain_init_in_eq. cbv zeta. unfold committed, pool.
    cbn [chain lists pending_transactions flat_map transactions Block_init].
    rewrite elements_at_insert, elements_at_insert_ne, elements_at_insert
      by apply fresh_insert_ne.
    intros Ht. by apply elem_of_nil in Ht.
  - intros bc bc' Hsteps Hstep IH t.
    pose proof (wf_rtc _ _ (wf_init m now) Hsteps) as Hwf.
    destruct Hstep as [bc s r a rnd|bc fuel miner now' rnd ok bc' Hmine].
    + rewrite committed_add_transaction, pool_add_transaction, app_assoc by done.
      intros [Ht| ->%list_elem_of_singleton]%elem_of_app; [by apply IH|].
      apply generate_transaction_id_well_formed.
    + destruct ok; cycle 1.
      { apply mine_block_Returns in Hmine as [(_ & _ & ->)|(? & _)]; [apply IH|done]. }
      rewrite (committed_mine_block _ _ _ _ _ _ Hwf Hmine),
              (pool_mine_block _ _ _ _ _ _ Hmine).
      intros [Ht| ->%list_elem_of_singleton]%elem_of_app; [by apply IH|].
      apply generate_transaction_id_well_formed.
Qed.

End Composition.

(** ** Balances of Python [int] amounts *)

Section Conservation.
Local Open Scope Z_scope.
Implicit Types (ts : list (Transaction Z)) (t : Transaction Z).

Lemma balance_of_snoc address ts t :
  balance_of address (ts ++ [t]) = balance_of address ts + delta address t.
Proof.
  unfold balance_of. rewrite fold_left_app. cbn [fold_left].
  unfold debit_else_credit at 1, delta. repeat case_decide; cbn; lia.
Qed.

Lemma total_plus f g addresses :
  total (fun a => f a + g a) addresses = total f addresses + total g addresses.
Proof. unfold total. induction addresses as [|a addresses IH]; cbn; lia. Qed.

Lemma total_ext f g addresses :
  (forall a, f a = g a) -> total f addresses = total g addresses.
Proof. intros Hfg. unfold total. induction addresses as [|a addresses IH]; cbn; [done|]. by rewrite Hfg, IH. Qed.

Lemma total_absent (x : string) v addresses :
  x ∉ addresses -> total (fun a => if decide (x = a) then v else 0) addresses = 0.
Proof.
  unfold total. induction addresses as [|a addresses IH]; cbn; [done|].
  intros [Hne Hnot]%not_elem_of_cons. rewrite decide_False by done. by rewrite IH.
Qed.

Lemma total_single (x : string) v addresses :
  NoDup addresses -> x ∈ addresses ->
  total (fun a => if decide (x = a) then v else 0) addresses = v.
Proof.
  induction 1 as [|a addresses Hnot Hnodup IH]; [by intros ?%elem_of_nil|].
  unfold total in *. cbn. intros [->|Hin]%elem_of_cons.
  - rewrite decide_True by done. fold (total (fun a0 => if decide (a = a0) then v else 0) addresses).
    rewrite total_absent by done. lia.
  - rewrite decide_False by (intros ->; done). by rewrite IH.
Qed.

Lemma total_delta addresses t :
  NoDup addresses -> sender t ∈ addresses -> recipient t ∈ addresses ->
  total (fun a => delta a t) addresses =
  if decide (sender t = recipient t) then - amount t else 0.
Proof.
  intros Hnodup Hs Hr.
  rewrite (total_ext _ (fun a => (if decide (sender t = a) then - amount t else 0)
                               + (if decide (recipient t = a)
                                  then (if decide (sender t = recipient t) then 0 else amount t)
                                  else 0))).
  - rewrite total_plus, !total_single by done. case_decide; lia.
  - intros a. unfold delta. repeat case_decide; try congruence; lia.
Qed.

Lemma total_zero addresses : total (fun _ => 0) addresses = 0.
Proof. unfold total. induction addresses as [|a addresses IH]; cbn; [done|]. by rewrite IH. Qed.

Lemma total_balance_of addresses ts :
  NoDup addresses ->
  (forall t, t ∈ ts -> sender t ∈ addresses /\ recipient t ∈ addresses) ->
  total (fun a => balance_of a ts) addresses =
  - foldr Z.add 0 (map amount (filter (fun t => sender t = recipient t) ts)).
Proof.
  intros Hnodup. induction ts as [|t ts IH] using rev_ind; intros Hcover.
  - apply total_zero.
  - rewrite (total_ext _ (fun a => balance_of a ts + delta a t))
      by (intros a; apply balance_of_snoc).
    rewrite total_plus, IH; cycle 1.
    { intros u Hu. apply Hcover, elem_of_app. by left. }
    destruct (Hcover t) as [Hs Hr]; [apply elem_of_app; right; by left|].
    rewrite total_delta by done.
    rewrite filter_app, map_app, foldr_app.
    assert (Hshift : forall (xs : list Z) z, foldr Z.add z xs = foldr Z.add 0 xs + z).
    { induction xs as [|x xs IHx]; intros z; cbn; [lia|]. rewrite IHx. lia. }
    rewrite filter_cons, filter_nil. case_decide; cbn; [|lia].
    rewrite (Hshift _ (amount t + 0)). lia.
Qed.

(** X16: with Python [int] amounts, the balances of a duplicate-free list
    of addresses that contains every sender and recipient of the committed
    transactions sum to minus the amounts of the committed transactions
    whose sender is their recipient (so to 0 when there is none). *)
Theorem balances_sum_to_burned (bc : Blockchain Z) (addresses : list string) :
  NoDup addresses ->
  (forall t, t ∈ committed bc -> sender t ∈ addresses /\ recipient t ∈ addresses) ->
  total (get_balance bc) addresses =
  - foldr Z.add 0 (map amount (filter (fun t => sender t = recipient t) (committed bc))).
Proof.
  intros Hnodup Hcover.
  rewrite (total_ext _ (fun a => balance_of a (committed bc)))
    by (intros a; apply get_balance_balance_of).
  by apply total_balance_of.
Qed.

End Conservation.

(** ** The mining reward *)

Section Reward.
Context {A : Type} `{PyNumber A}.
Implicit Types (bc : Blockchain A) (b : Block).

Lemma add_transactions_steps bc (qs : list request) :
  rtc step bc (add_transactions bc qs).
Proof.
  revert bc. induction qs as [|q qs IH]; intros bc; [apply rtc_refl|].
  eapply rtc_l; [apply step_add_transaction | apply IH].
Qed.

Lemma pool_add_transactions bc (qs : list request) :
  pool (add_transactions bc qs) = pool bc ++ map request_transaction qs.
Proof.
  revert bc. induction qs as [|q qs IH]; intros bc; cbn [add_transactions fold_left map].
  - by rewrite app_nil_r.
  - fold (add_transactions (add_transaction bc q.1.1.1 q.1.1.2 q.1.2 q.2) qs).
    rewrite IH, pool_add_transaction, <- app_assoc. done.
Qed.

Lemma committed_add_transactions bc (qs : list request) :
  wf bc -> committed (add_transactions bc qs) = committed bc.
Proof.
  revert bc. induction qs as [|q qs IH]; intros bc Hwf; [done|].
  cbn [add_transactions fold_left].
  fold (add_transactions (add_transaction bc q.1.1.1 q.1.1.2 q.1.2 q.2) qs).
  rewrite IH by by apply wf_add_transaction. by apply committed_add_transaction.
Qed.

(** X18: the reward of a mined block is pending, and not in the balance of
    its miner, until the next block is mined, whatever transactions are
    added in between. The next block commits the reward first and then the
    transactions added since: the miner's balance becomes the balance it
    had plus 1 (minus 1 when the miner's address is "Blockchain", the
    reward's sender), updated by the added transactions in call order. *)
Theorem reward_is_credited_by_next_block
    fuel bc miner_address now rnd bc1 (added : list request)
    fuel' miner_address' now' rnd' bc2 :
  reachable bc ->
  mine_block fuel bc miner_address now rnd = Returns (true, bc1) ->
  mine_block fuel' (add_transactions bc1 added) miner_address' now' rnd'
    = Returns (true, bc2) ->
  get_balance bc1 miner_address =
    fold_left (balance_step miner_address) (pool bc) (get_balance bc miner_address) /\
  get_balance (add_transactions bc1 added) miner_address = get_balance bc1 miner_address /\
  (miner_address <> "Blockchain" ->
     get_balance bc2 miner_address =
     fold_left (balance_step miner_address) (map request_transaction added)
               (py_add (get_balance bc1 miner_address) (py_int 1))) /\
  (miner_address = "Blockchain" ->
     get_balance bc2 miner_address =
     fold_left (balance_step miner_address) (map request_transaction added)
               (py_sub (get_balance bc1 miner_address) (py_int 1))).
Proof.
  intros Hreach Hmine1 Hmine2. pose proof (wf_reachable _ Hreach) as Hwf.
  pose proof (wf_mine_block _ _ _ _ _ _ _ Hwf Hmine1) as Hwf1.
  assert (Hwf1' : wf (add_transactions bc1 added)).
  { eapply wf_rtc; [done | apply add_transactions_steps]. }
  assert (Hpending : get_balance (add_transactions bc1 added) miner_address
                     = get_balance bc1 miner_address).
  { by rewrite !get_balance_committed, committed_add_transactions. }
  split; [by apply (get_balance_mine_block _ _ _ _ _ _ _ Hwf Hmine1)|].
  split; [done|].
  rewrite (get_balance_mine_block _ _ _ _ _ _ miner_address Hwf1' Hmine2), Hpending.
  rewrite pool_add_transactions, (pool_mine_block _ _ _ _ _ _ Hmine1).
  cbn [app fold_left].
  assert (Hreward : forall x : A,
            balance_step miner_address x (reward miner_address rnd) =
            if String.eqb "Blockchain" miner_address then py_sub x (py_int 1)
            else py_add x (py_int 1)).
  { intros x. unfold balance_step, reward. cbn [sender recipient amount].
    by rewrite (String.eqb_refl miner_address). }
  rewrite Hreward. split.
  - intros Hne. by destruct (String.eqb_spec "Blockchain" miner_address).
  - intros ->. by rewrite String.eqb_refl.
Qed.
End Reward.

(** ** The further properties on the concrete ledger *)

Lemma lookup_ledger2 : chain Scenario.ledger2 !! 1%nat = Some Scenario.block1.
Proof. vm_compute. reflexivity. Qed.

Lemma chain_ledger2' : chain Scenario.ledger2' = [Scenario.genesis; Scenario.block1'].
Proof. vm_compute. reflexivity. Qed.

Lemma transactions_ledger2 :
  committed Scenario.ledger2 ++ pool Scenario.ledger2 = [Scenario.payment; Scenario.reward_M].
Proof. vm_compute. reflexivity. Qed.

Lemma invalid_ledger2 : is_chain_valid Scenario.ledger2 = false.
Proof. vm_compute. reflexivity. Qed.

Lemma valid_proof_leading_zero_bytes_witness :
  firstn 2 (SHA256.digest
              (SHA256.bytes_of_string
                 (candidate_hash Scenario.ledger1 Scenario.mined_at Scenario.genesis
                  ++ str_N 1)%string)) = [0; 0]%Z.
Proof.
  apply (proj1 (valid_proof_leading_zero_bytes _ _)). vm_compute. reflexivity.
Defined.

Lemma block_index_is_position_witness : index Scenario.block1 = 1%nat.
Proof.
  apply (block_index_is_position Scenario.ledger2 1 Scenario.block1
           ScenarioFacts.reachable_ledger2 lookup_ledger2).
Defined.

Lemma reachable_chain_is_linked_witness :
  String.length (hash Scenario.block1) = 64%nat /\
  exists previous_block,
    chain Scenario.ledger2 !! 0%nat = Some previous_block /\
    previous_hash Scenario.block1 = hash previous_block.
Proof.
  destruct (reachable_chain_is_linked Scenario.ledger2 1 Scenario.block1
              ScenarioFacts.reachable_ledger2 lookup_ledger2) as (Hlen & _ & Hlink).
  split; [exact Hlen|]. apply (Hlink 0%nat). reflexivity.
Defined.

Lemma mined_block_carries_least_proof_witness :
  valid_proof (hash Scenario.block1) 1 = true /\
  valid_proof (hash Scenario.block1) 0 = false.
Proof.
  destruct (mined_block_carries_least_proof Scenario.ledger2 1 Scenario.block1
              ScenarioFacts.reachable_ledger2 lookup_ledger2) as (_ & Hproof).
  destruct (Hproof (le_n 1)) as [Hvalid Hleast].
  split; [exact Hvalid|]. apply Hleast. reflexivity.
Defined.

Lemma is_chain_valid_reachable_witness : is_chain_valid Scenario.ledger2' = true.
Proof.
  apply (is_chain_valid_reachable Scenario.ledger2' ScenarioFacts.reachable_ledger2').
  rewrite chain_ledger2'. intros b [->|Hb]%elem_of_cons; [reflexivity|].
  apply list_elem_of_singleton in Hb as ->. reflexivity.
Defined.

Lemma mine_block_no_index_error_witness :
  last (chain Scenario.ledger2) = Some Scenario.block1 /\
  mine_block 1 Scenario.ledger2 "M" Scenario.mined_at Scenario.rnd_b <> Raises "IndexError".
Proof.
  destruct (mine_block_no_index_error Scenario.ledger2 ScenarioFacts.reachable_ledger2)
    as [(tip & Htip & _) Hmine].
  split; [vm_compute; reflexivity | apply Hmine].
Defined.

Lemma add_transaction_keeps_validity_witness :
  is_chain_valid (add_transaction Scenario.ledger2' "C" "A" 7%Z Scenario.rnd_a) = true.
Proof.
  rewrite (add_transaction_keeps_validity Scenario.ledger2' "C" "A" 7%Z Scenario.rnd_a
             ScenarioFacts.reachable_ledger2').
  apply ScenarioFacts.valid_ledger2'.
Defined.

Lemma validity_is_never_regained_witness :
  is_chain_valid (add_transaction Scenario.ledger2 "C" "A" 7%Z Scenario.rnd_a) = false.
Proof.
  apply (validity_is_never_regained Scenario.ledger2 _ ScenarioFacts.reachable_ledger2).
  - apply rtc_once. apply step_add_transaction.
  - apply invalid_ledger2.
Defined.

Lemma add_block_validity_witness :
  is_chain_valid (add_block Scenario.ledger1 Scenario.block1') = true /\
  is_chain_valid (add_block Scenario.ledger1 Scenario.block1) = false.
Proof.
  destruct (add_block_validity Scenario.ledger1 Scenario.block1') as [_ Hlast'].
  destruct (add_block_validity Scenario.ledger1 Scenario.block1) as [_ Hlast].
  assert (Htip : last (chain Scenario.ledger1) = Some Scenario.genesis)
    by (vm_compute; reflexivity).
  rewrite (Hlast' _ Htip), (Hlast _ Htip). split; vm_compute; reflexivity.
Defined.

Lemma stored_hash_tampering_detected_witness :
  is_chain_valid (tamper 0 (set_hash "f00d") Scenario.ledger2') = false /\
  is_chain_valid (tamper 0 (set_hash "f00d") Scenario.ledger0) = true.
Proof.
  split.
  - apply (stored_hash_tampering_detected Scenario.ledger2' 0 Scenario.genesis "f00d").
    + apply ScenarioFacts.valid_ledger2'.
    + vm_compute. reflexivity.
    + discriminate.
    + right. vm_compute. lia.
  - apply (stored_hash_tampering_detected Scenario.ledger0 0 Scenario.genesis "f00d").
    + vm_compute. reflexivity.
    + vm_compute. reflexivity.
    + discriminate.
    + vm_compute. reflexivity.
Defined.

Lemma get_transaction_by_id_stable_witness :
  get_transaction_by_id (add_transaction Scenario.ledger2 "C" "A" 7%Z Scenario.rnd_a)
                        "aaaaaaaaaa" = Some Scenario.payment.
Proof.
  apply (get_transaction_by_id_stable Scenario.ledger2 _ _ _
           ScenarioFacts.reachable_ledger2).
  - apply rtc_once. apply step_add_transaction.
  - vm_compute. reflexivity.
Defined.

Lemma get_balance_after_mining_witness : get_balance Scenario.ledger2 "B" = 10%Z.
Proof.
  rewrite (get_balance_after_mining 2 Scenario.ledger1 "M" Scenario.mined_at Scenario.rnd_b
             Scenario.ledger2 "B" ScenarioFacts.reachable_ledger1 ScenarioFacts.mine_ledger1).
  vm_compute. reflexivity.
Defined.

Lemma get_transaction_by_id_after_mining_witness :
  get_transaction_by_id Scenario.ledger2 "aaaaaaaaaa" = Some Scenario.payment.
Proof.
  rewrite (get_transaction_by_id_after_mining 2 Scenario.ledger1 "M" Scenario.mined_at
             Scenario.rnd_b Scenario.ledger2 "aaaaaaaaaa"
             ScenarioFacts.reachable_ledger1 ScenarioFacts.mine_ledger1).
  vm_compute. reflexivity.
Defined.

Lemma added_transaction_found_after_mining_witness :
  get_transaction_by_id Scenario.ledger1 (generate_transaction_id Scenario.rnd_a) = None /\
  get_transaction_by_id Scenario.ledger2 (generate_transaction_id Scenario.rnd_a)
    = Some (mkTransaction "A" "B" 10%Z (generate_transaction_id Scenario.rnd_a)).
Proof.
  apply (added_transaction_found_after_mining 2 Scenario.ledger0 "A" "B" 10%Z
           Scenario.rnd_a "M" Scenario.mined_at Scenario.rnd_b Scenario.ledger2).
  - exists ∅, Scenario.opened. apply rtc_refl.
  - intros u Hu. vm_compute in Hu. by apply elem_of_nil in Hu.
  - apply ScenarioFacts.mine_ledger1.
Defined.

Lemma transaction_ids_well_formed_witness :
  String.length (id Scenario.reward_M) = 10%nat /\
  Forall (fun c => occurs c id_population = true)
         (list_ascii_of_string (id Scenario.reward_M)).
Proof.
  apply (transaction_ids_well_formed Scenario.ledger2 Scenario.reward_M
           ScenarioFacts.reachable_ledger2).
  rewrite transactions_ledger2. apply elem_of_cons. right. by left.
Defined.

Lemma balances_sum_to_burned_witness :
  total (get_balance Scenario.ledger2) ["A"; "B"] = 0%Z.
Proof.
  rewrite (balances_sum_to_burned Scenario.ledger2 ["A"; "B"]).
  - vm_compute. reflexivity.
  - apply NoDup_cons. split; [|apply NoDup_singleton].
    intros Hin%list_elem_of_singleton. discriminate.
  - assert (Hcommitted : committed Scenario.ledger2 = [Scenario.payment])
      by (vm_compute; reflexivity).
    rewrite Hcommitted. intros t Ht%list_elem_of_singleton. subst t.
    split; [by left | right; by left].
Defined.

Lemma reward_is_credited_by_next_block_witness :
  get_balance Scenario.ledger2 "M" = 0%Z /\
  get_balance (add_transactions Scenario.ledger2 Scenario.spending) "M" = 0%Z /\
  get_balance Scenario.ledger3 "M" = (-4)%Z.
Proof.
  assert (Hmine : mine_block 3 (add_transactions Scenario.ledger2 Scenario.spending) "N"
                    Scenario.mined_next Scenario.rnd_b
                  = Returns (true, Scenario.ledger3)) by (vm_compute; reflexivity).
  destruct (reward_is_credited_by_next_block 2 Scenario.ledger1 "M" Scenario.mined_at
              Scenario.rnd_b Scenario.ledger2 Scenario.spending 3 "N" Scenario.mined_next
              Scenario.rnd_b Scenario.ledger3 ScenarioFacts.reachable_ledger1
              ScenarioFacts.mine_ledger1 Hmine) as (Hmined & Hpending & Hcredited & _).
  assert (Hbefore : get_balance Scenario.ledger2 "M" = 0%Z).
  { rewrite Hmined. vm_compute. reflexivity. }
  split; [exact Hbefore|]. split; [rewrite Hpending; exact Hbefore|].
  rewrite Hcredited by discriminate. rewrite Hbefore. vm_compute. reflexivity.
Defined.

